(** * battalion-common: pricing with a promotional markup discount

    Shallow embedding of [src/utils/pricing.ts] (the function
    [calculatePricesWithMarkupDiscount]), of [src/constants/pricing.ts] and of
    the two record types of [src/types], together with the part of the
    [decimal.js] arithmetic the function calls.

    Numbers.  A JavaScript [number] is NaN, an infinity or a finite value.
    [new Decimal(n)] reads a finite number through [n.toString()], so the
    value a computation starts from is the decimal fraction that string
    denotes; a finite number is therefore carried as that rational.  Signed
    zeros are identified (they are [===] in JavaScript and no division by a
    zero is reachable in the function).  [toNumber()] gives the double nearest
    to the Decimal; the record of results keeps the Decimal's value itself
    (integer results below 2^53 are exact doubles).

    decimal.js.  The library is used with its defaults: every arithmetic
    method ([times], [minus], [plus], [dividedBy]) rounds its exact result to
    [precision = 20] significant digits in mode [ROUND_HALF_UP] (to nearest,
    ties away from zero); the constructor and [toDecimalPlaces] do not round
    to the precision.  The constructor raises a [DecimalError] on an argument
    that is neither a number, a string, a bigint nor a Decimal. *)

From Stdlib Require Import ZArith QArith Qround Qpower Qreduction Qabs.
From Stdlib Require Import Bool Lia Lqa.
From Stdlib Require Qcanon.

Local Open Scope Q_scope.

(** ** JavaScript values of the input and output records *)

Inductive number : Type :=
| NaN
| Infinity (negative : bool)
| Finite (q : Q).

Inductive value : Type :=
| undefined
| null
| num (n : number).

(** [!v] is [negb (truthy v)]: [undefined], [null], NaN and zero are falsy. *)
Definition truthy (v : value) : bool :=
  match v with
  | undefined | null => false
  | num NaN => false
  | num (Infinity _) => true
  | num (Finite q) => negb (Qeq_bool q 0)
  end.

(** ** Exceptions *)

Inductive DecimalError : Type :=
| InvalidArgument (v : value).

Inductive result (A : Type) : Type :=
| Return (a : A)
| Throw (e : DecimalError).

Arguments Return {A} a.
Arguments Throw {A} e.

Definition bind {A B : Type} (c : result A) (k : A -> result B) : result B :=
  match c with
  | Return a => k a
  | Throw e => Throw e
  end.

Notation "x <- c ;; k" := (bind c (fun x => k))
  (at level 61, c at next level, right associativity).
Notation "' pat <- c ;; k" := (bind c (fun x => match x with pat => k end))
  (at level 61, pat pattern, c at next level, right associativity).

(** ** The decimal.js operations used by the function *)

Module Decimal.

Inductive t : Type :=
| DNaN
| DInfinity (negative : bool)
| DFinite (q : Q).

(** Library defaults ([Decimal.precision], [Decimal.rounding]). *)
Definition precision : Z := 20.

Definition Qlt_bool (x y : Q) : bool := negb (Qle_bool y x).

(** ROUND_HALF_UP to an integer: nearest, ties away from zero. *)
Definition round_half_up (q : Q) : Z :=
  if Qle_bool 0 q then Qfloor (q + (1 # 2))
  else (- Qfloor (- q + (1 # 2)))%Z.

(** Rounding at the digit of weight [10^-dp]. *)
Definition round_dp (dp : Z) (q : Q) : Q :=
  Qred (inject_Z (round_half_up (q * 10 ^ dp)) / 10 ^ dp).

(** The decimal exponent [e] of a non-zero value: [10^e <= |q| < 10^(e+1)].
    It is searched downwards from a bound given by the binary size of the
    numerator. *)
Fixpoint exponent_from (fuel : nat) (e : Z) (x : Q) : Z :=
  match fuel with
  | O => e
  | S fuel' => if Qle_bool (10 ^ e) x then e else exponent_from fuel' (e - 1) x
  end.

Definition exponent (q : Q) : Z :=
  let hi := Z.log2 (Z.abs (Qnum q)) in
  let lo := (Z.log2 (Zpos (Qden q)) + 1)%Z in
  exponent_from (Z.to_nat (hi + lo)) hi (Qabs q).

(** [finalise(x, sd, rm)]: round to [sd] significant digits.  The library
    passes [sd <= 0] as well (from [toDecimalPlaces]); the rounding digit is
    then to the left of the first digit. *)
Definition finalise (sd : Z) (q : Q) : Q :=
  if Qeq_bool q 0 then 0 else round_dp (sd - (exponent q + 1)) q.

(** What every arithmetic method does to its exact result before returning
    it: [finalise(r, Ctor.precision, Ctor.rounding)]. *)
Definition roundResult (q : Q) : Q := finalise precision q.

(** [new Decimal(z)] for an integer literal. *)
Definition ofZ (z : Z) : t := DFinite (inject_Z z).

(** [new Decimal(v)] for [typeof v === 'number']. *)
Definition ofNumber (n : number) : t :=
  match n with
  | NaN => DNaN
  | Infinity s => DInfinity s
  | Finite q => DFinite q
  end.

(** [new Decimal(v)]: anything but a number falls through to
    [throw Error(invalidArgument + v)]. *)
Definition new (v : value) : result t :=
  match v with
  | num n => Return (ofNumber n)
  | undefined | null => Throw (InvalidArgument v)
  end.

Definition times (x y : t) : t :=
  match x, y with
  | DNaN, _ | _, DNaN => DNaN
  | DInfinity s, DInfinity s' => DInfinity (xorb s s')
  | DInfinity s, DFinite q | DFinite q, DInfinity s =>
      if Qeq_bool q 0 then DNaN else DInfinity (xorb s (Qlt_bool q 0))
  | DFinite p, DFinite q => DFinite (roundResult (p * q))
  end.

Definition plus (x y : t) : t :=
  match x, y with
  | DNaN, _ | _, DNaN => DNaN
  | DInfinity s, DInfinity s' => if Bool.eqb s s' then DInfinity s else DNaN
  | DInfinity s, DFinite _ | DFinite _, DInfinity s => DInfinity s
  | DFinite p, DFinite q => DFinite (roundResult (p + q))
  end.

Definition minus (x y : t) : t :=
  match x, y with
  | DNaN, _ | _, DNaN => DNaN
  | DInfinity s, DInfinity s' => if Bool.eqb s s' then DNaN else DInfinity s
  | DInfinity s, DFinite _ => DInfinity s
  | DFinite _, DInfinity s => DInfinity (negb s)
  | DFinite p, DFinite q => DFinite (roundResult (p - q))
  end.

Definition dividedBy (x y : t) : t :=
  match x, y with
  | DNaN, _ | _, DNaN => DNaN
  | DInfinity _, DInfinity _ => DNaN
  | DInfinity s, DFinite q => DInfinity (xorb s (Qlt_bool q 0))
  | DFinite _, DInfinity _ => DFinite 0
  | DFinite p, DFinite q =>
      if Qeq_bool q 0 then
        if Qeq_bool p 0 then DNaN else DInfinity (Qlt_bool p 0)
      else DFinite (roundResult (p / q))
  end.

(** [cmp]: [None] stands for the NaN the library returns. *)
Definition cmp (x y : t) : option comparison :=
  match x, y with
  | DNaN, _ | _, DNaN => None
  | DInfinity s, DInfinity s' =>
      Some (if Bool.eqb s s' then Eq else if s then Lt else Gt)
  | DInfinity s, DFinite _ => Some (if s then Lt else Gt)
  | DFinite _, DInfinity s => Some (if s then Gt else Lt)
  | DFinite p, DFinite q => Some (p ?= q)
  end.

Definition lessThan (x y : t) : bool :=
  match cmp x y with Some Lt => true | _ => false end.

Definition greaterThan (x y : t) : bool :=
  match cmp x y with Some Gt => true | _ => false end.

Definition isZero (x : t) : bool :=
  match x with
  | DFinite q => Qeq_bool q 0
  | _ => false
  end.

(** [x.toDecimalPlaces(dp, ROUND_HALF_UP)], which the library computes as
    [finalise(x, dp + x.e + 1, rm)]. *)
Definition toDecimalPlaces (dp : Z) (x : t) : t :=
  match x with
  | DFinite q => DFinite (finalise (dp + exponent q + 1) q)
  | _ => x
  end.

Definition toNumber (x : t) : number :=
  match x with
  | DNaN => NaN
  | DInfinity s => Infinity s
  | DFinite q => Finite q
  end.

End Decimal.

(** ** src/constants/pricing.ts *)

Definition ONE_MILLION_IN_CENTS : number := Finite (inject_Z 100000000).

(** ** src/types *)

Record CalculatePricesWithMarkupDiscountInput : Type := {
  promoMarkupDiscount : value;
  spotPrice : value;
  wholesaleMarkup : value;
  markupByTier : value;
  actualMetalWeight : value;
  tier0Price : value;
  maximumPremiumDiscount : value
}.

Record CalculatedPricesWithMarkupDiscount : Type := {
  originalPrice : number;
  calculatedPrice : number;
  totalDiscount : number;
  totalDiscountPercent : number
}.

(** ** src/utils/pricing.ts *)

Definition zero : number := Finite 0.

Definition calculatePricesWithMarkupDiscount
    (input : CalculatePricesWithMarkupDiscountInput)
  : result CalculatedPricesWithMarkupDiscount :=
  let '(Build_CalculatePricesWithMarkupDiscountInput
          promoMarkupDiscount spotPrice wholesaleMarkup markupByTier
          actualMetalWeight tier0Price maximumPremiumDiscount) := input in
  (* Validate required inputs *)
  if negb (truthy spotPrice) || negb (truthy markupByTier) then
    Return {| originalPrice := ONE_MILLION_IN_CENTS;
              calculatedPrice := ONE_MILLION_IN_CENTS;
              totalDiscount := zero;
              totalDiscountPercent := zero |}
  else
  (* Calculate tier price *)
  spot <- Decimal.new spotPrice ;;
  markup <- Decimal.new markupByTier ;;
  let tierPrice := Decimal.times spot markup in
  let formattedTierPrice :=
    Decimal.toNumber (Decimal.toDecimalPlaces 0 tierPrice) in
  (* If no promo discount, return tier price *)
  if negb (truthy promoMarkupDiscount) || negb (truthy wholesaleMarkup)
     || negb (truthy actualMetalWeight) then
    Return {| originalPrice := formattedTierPrice;
              calculatedPrice := formattedTierPrice;
              totalDiscount := zero;
              totalDiscountPercent := zero |}
  else
  (* Calculate base prices *)
  spot' <- Decimal.new spotPrice ;;
  wholesale <- Decimal.new wholesaleMarkup ;;
  let nabxPrice := Decimal.times spot' wholesale in
  spot'' <- Decimal.new spotPrice ;;
  weight <- Decimal.new actualMetalWeight ;;
  let meltValue := Decimal.times spot'' weight in
  (* Calculate tier0's premium if this isn't tier0 *)
  tier0PriceDecimal <-
    (if truthy tier0Price then Decimal.new tier0Price else Return tierPrice) ;;
  let tier0Premium := Decimal.minus tier0PriceDecimal meltValue in
  (* Calculate house markup (incremental markup above wholesale);
     clamp: if a tier ends up below wholesale, don't make discount increase
     price *)
  let houseMarkup := Decimal.minus tierPrice nabxPrice in
  let houseMarkup :=
    if Decimal.lessThan houseMarkup (Decimal.ofZ 0) then Decimal.ofZ 0
    else houseMarkup in
  (* Apply discount to house markup only *)
  promo <- Decimal.new promoMarkupDiscount ;;
  let markupDiscountRate := Decimal.dividedBy promo (Decimal.ofZ 100) in
  let discountedHouseMarkup :=
    Decimal.times houseMarkup
                  (Decimal.minus (Decimal.ofZ 1) markupDiscountRate) in
  (* Calculate discounted final price *)
  let discountedFinalPrice := Decimal.plus nabxPrice discountedHouseMarkup in
  (* Calculate total discount using tier0 price for non-tier0 *)
  let totalDiscount := Decimal.minus tier0PriceDecimal discountedFinalPrice in
  (* Always use tier0's premium for percentage calculation *)
  let totalDiscountPercent :=
    if Decimal.isZero tier0Premium then Decimal.ofZ 0
    else Decimal.times (Decimal.dividedBy totalDiscount tier0Premium)
                       (Decimal.ofZ 100) in
  (* Validate against maximum premium discount if specified *)
  (* [greaterThan(y)] compares with [new Decimal(y)] *)
  cap <- Decimal.new maximumPremiumDiscount ;;
  '(discountedFinalPrice, totalDiscount, totalDiscountPercent) <-
    (if Decimal.greaterThan totalDiscountPercent cap then
       (* Recalculate with capped discount percentage *)
       cap' <- Decimal.new maximumPremiumDiscount ;;
       let cappedDiscountAmount :=
         Decimal.dividedBy (Decimal.times tier0Premium cap')
                           (Decimal.ofZ 100) in
       cap'' <- Decimal.new maximumPremiumDiscount ;;
       Return (Decimal.minus tier0PriceDecimal cappedDiscountAmount,
               cappedDiscountAmount,
               cap'')
     else Return (discountedFinalPrice, totalDiscount, totalDiscountPercent)) ;;
  Return
    {| originalPrice := formattedTierPrice;
       calculatedPrice :=
         Decimal.toNumber (Decimal.toDecimalPlaces 0 discountedFinalPrice);
       totalDiscount :=
         Decimal.toNumber (Decimal.toDecimalPlaces 0 totalDiscount);
       totalDiscountPercent :=
         Decimal.toNumber (Decimal.toDecimalPlaces 2 totalDiscountPercent) |}.


(** ** The quantities of the discount path, by name

    The bindings of the function body after its two guards, as functions of
    the fields they read.  [discount_path_result] below shows that the
    function returns exactly what these say. *)

Section DiscountPath.

Variables promo spot wholesale tier weight : number.
Variable tier0 : value.
Variable cap : number.

Definition inputOf : CalculatePricesWithMarkupDiscountInput :=
  {| promoMarkupDiscount := num promo;
     spotPrice := num spot;
     wholesaleMarkup := num wholesale;
     markupByTier := num tier;
     actualMetalWeight := num weight;
     tier0Price := tier0;
     maximumPremiumDiscount := num cap |}.

Definition tierPrice : Decimal.t :=
  Decimal.times (Decimal.ofNumber spot) (Decimal.ofNumber tier).

(** The wholesale price. *)
Definition nabxPrice : Decimal.t :=
  Decimal.times (Decimal.ofNumber spot) (Decimal.ofNumber wholesale).

Definition meltValue : Decimal.t :=
  Decimal.times (Decimal.ofNumber spot) (Decimal.ofNumber weight).

(** The reference price: [tier0Price] when truthy, else the tier price. *)
Definition tier0PriceDecimal : Decimal.t :=
  match tier0 with
  | num n => if truthy tier0 then Decimal.ofNumber n else tierPrice
  | _ => tierPrice
  end.

Definition tier0Premium : Decimal.t :=
  Decimal.minus tier0PriceDecimal meltValue.

Definition houseMarkup : Decimal.t :=
  let houseMarkup := Decimal.minus tierPrice nabxPrice in
  if Decimal.lessThan houseMarkup (Decimal.ofZ 0) then Decimal.ofZ 0
  else houseMarkup.

Definition markupDiscountRate : Decimal.t :=
  Decimal.dividedBy (Decimal.ofNumber promo) (Decimal.ofZ 100).

Definition discountedHouseMarkup : Decimal.t :=
  Decimal.times houseMarkup (Decimal.minus (Decimal.ofZ 1) markupDiscountRate).

(** The final price, the total discount and its percentage before the cap
    is looked at. *)
Definition discountedFinalPrice : Decimal.t :=
  Decimal.plus nabxPrice discountedHouseMarkup.

Definition uncappedTotalDiscount : Decimal.t :=
  Decimal.minus tier0PriceDecimal discountedFinalPrice.

Definition uncappedPercent : Decimal.t :=
  if Decimal.isZero tier0Premium then Decimal.ofZ 0
  else Decimal.times (Decimal.dividedBy uncappedTotalDiscount tier0Premium)
                     (Decimal.ofZ 100).

(** The test of the cap, and the discount it allows. *)
Definition capApplies : bool :=
  Decimal.greaterThan uncappedPercent (Decimal.ofNumber cap).

Definition cappedDiscountAmount : Decimal.t :=
  Decimal.dividedBy (Decimal.times tier0Premium (Decimal.ofNumber cap))
                    (Decimal.ofZ 100).

End DiscountPath.

(** An input reaches the discount path when it passes both guards. *)
Definition reachesDiscountPath (i : CalculatePricesWithMarkupDiscountInput)
  : bool :=
  truthy (spotPrice i) && truthy (markupByTier i)
  && truthy (promoMarkupDiscount i) && truthy (wholesaleMarkup i)
  && truthy (actualMetalWeight i).

Definition isNumber (v : value) : bool :=
  match v with
  | num _ => true
  | _ => false
  end.

Definition isInfinite (v : value) : bool :=
  match v with
  | num (Infinity _) => true
  | _ => false
  end.

(** The fixed result of the first guard. *)
Definition fallback : CalculatedPricesWithMarkupDiscount :=
  {| originalPrice := ONE_MILLION_IN_CENTS;
     calculatedPrice := ONE_MILLION_IN_CENTS;
     totalDiscount := zero;
     totalDiscountPercent := zero |}.

(** Order between finite values; it holds of no NaN and of no infinity. *)
Definition finite_le (x y : Decimal.t) : Prop :=
  match x, y with
  | Decimal.DFinite p, Decimal.DFinite q => p <= q
  | _, _ => False
  end.

Definition finite_lt (x y : Decimal.t) : Prop :=
  match x, y with
  | Decimal.DFinite p, Decimal.DFinite q => p < q
  | _, _ => False
  end.

Definition number_le (a b : number) : Prop :=
  finite_le (Decimal.ofNumber a) (Decimal.ofNumber b).

Definition number_lt (a b : number) : Prop :=
  finite_lt (Decimal.ofNumber a) (Decimal.ofNumber b).

(** A value of at most [precision] significant digits: the rounding of
    results leaves it unchanged. *)
Definition representable (q : Q) : Prop :=
  Decimal.roundResult q == q.

(** The subtraction [x.minus(y)] of two finite Decimals is exact when the
    difference has at most [precision] significant digits. *)
Definition exactDifference (x y : Decimal.t) : Prop :=
  match x, y with
  | Decimal.DFinite a, Decimal.DFinite b => representable (a - b)
  | _, _ => False
  end.

(** The discounted final price of finite amounts, in rationals: [sw] is the
    exact product of the spot price and the wholesale markup, [h] the
    clamped house markup and [p] the promotion in per cent. *)
Definition finalPriceOf (p sw h : Q) : Q :=
  Decimal.roundResult
    (Decimal.roundResult sw
     + Decimal.roundResult
         (h * Decimal.roundResult (1 - Decimal.roundResult (p / 100)))).

(** ** Concrete inputs *)

Definition dec (n : Z) (d : positive) : number := Finite (n # d).

(** The example of the function's documentation. *)
Definition doc_example : CalculatePricesWithMarkupDiscountInput :=
  {| spotPrice := num (dec 2000 1);
     markupByTier := num (dec 11 10);
     promoMarkupDiscount := num (dec 20 1);
     wholesaleMarkup := num (dec 95 100);
     actualMetalWeight := num (dec 1 1);
     tier0Price := undefined;
     maximumPremiumDiscount := num (dec 50 1) |}.

(** The documentation example with a reference price of 2300 and a cap of
    33.335 per cent. *)
Definition cap_example : CalculatePricesWithMarkupDiscountInput :=
  inputOf (dec 20 1) (dec 2000 1) (dec 95 100) (dec 11 10) (dec 1 1)
          (num (dec 2300 1)) (dec 33335 1000).

(** A tier priced below wholesale, with a reference price far above both. *)
Definition clamp_example : CalculatePricesWithMarkupDiscountInput :=
  inputOf (dec 20 1) (dec 1000 1) (dec 11 10) (dec 1 1) (dec 1 1)
          (num (dec 10000 1)) (dec 50 1).




Definition test_zero_spot_input : CalculatePricesWithMarkupDiscountInput :=
  inputOf (dec 0 1) (dec 0 1) (dec 1119394649 1000000000)
          (dec 1192155301 1000000000) (dec 1 1) undefined (dec 70 1).

(** A reference price of twenty-one digits: spot 50000000000, tier markup
    1.01, promotion 20 per cent, wholesale markup 1.01999999999, weight 1,
    reference price 10^20, cap 99.999999999 per cent.  Every field has at
    most fifteen significant digits, so each is the value its double prints
    as. *)
Definition twenty_digit_example : CalculatePricesWithMarkupDiscountInput :=
  inputOf (dec 20 1) (dec 50000000000 1) (dec 101999999999 100000000000)
          (dec 101 100) (dec 1 1)
          (num (dec 100000000000000000000 1))
          (dec 99999999999 1000000000).

(** The zero-house-markup case of the test suite: tier markup 1.11 below the
    wholesale markup 1.119394649, promotion 20 per cent, cap 70 per cent. *)
Definition test_below_wholesale_input
  : CalculatePricesWithMarkupDiscountInput :=
  inputOf (dec 20 1) (dec 4944 1) (dec 1119394649 1000000000)
          (dec 111 100) (dec 1 1) undefined (dec 70 1).




(** ** Shapes of inputs and results *)



(** A number that is an integer as soon as it is finite. *)
Definition integerIfFinite (n : number) : Prop :=
  match n with
  | Finite q => exists z : Z, q = inject_Z z
  | _ => True
  end.

(** A number with at most two decimal places as soon as it is finite. *)
Definition twoDecimalsIfFinite (n : number) : Prop :=
  match n with
  | Finite q => exists z : Z, q * 100 == inject_Z z
  | _ => True
  end.

(** The test suite's capped case: spot 4944, tier markup 2.0, wholesale
    markup 1.119394649, weight 1, promotion 100 per cent, reference price
    9888, and the cap as given. *)
Definition test_cap_input (cap : number)
  : CalculatePricesWithMarkupDiscountInput :=
  inputOf (dec 100 1) (dec 4944 1) (dec 1119394649 1000000000) (dec 2 1)
          (dec 1 1) (num (dec 9888 1)) cap.
(** * Properties of the rounding operations *)

Module RoundingFacts.
Import Decimal.

Lemma Qfloor_unique (x : Q) (k : Z) :
  inject_Z k <= x -> x < inject_Z (k + 1) -> Qfloor x = k.
Proof.
  intros Hlo Hhi.
  pose proof (Qfloor_le x) as Hf.
  pose proof (Qlt_floor x) as Hl.
  assert (H1 : (Qfloor x < k + 1)%Z).
  { rewrite Zlt_Qlt. eapply Qle_lt_trans; eassumption. }
  assert (H2 : (k < Qfloor x + 1)%Z).
  { rewrite Zlt_Qlt. eapply Qle_lt_trans; eassumption. }
  lia.
Qed.

Lemma round_half_up_comp (x y : Q) :
  x == y -> round_half_up x = round_half_up y.
Proof.
  intros H. unfold round_half_up.
  assert (Hb : Qle_bool 0 x = Qle_bool 0 y).
  { apply eq_true_iff_eq. rewrite !Qle_bool_iff. now rewrite H. }
  rewrite Hb.
  rewrite (Qfloor_comp (x + (1 # 2)) (y + (1 # 2))) by now rewrite H.
  rewrite (Qfloor_comp (- x + (1 # 2)) (- y + (1 # 2))) by now rewrite H.
  reflexivity.
Qed.

Lemma round_half_up_Z (n : Z) : round_half_up (inject_Z n) = n.
Proof.
  unfold round_half_up.
  destruct (Qle_bool 0 (inject_Z n)) eqn:Hs.
  - apply Qfloor_unique.
    + lra.
    + rewrite inject_Z_plus. change (inject_Z 1) with 1. lra.
  - assert (Qfloor (- inject_Z n + (1 # 2)) = (- n)%Z); [|lia].
    apply Qfloor_unique.
    + rewrite inject_Z_opp. lra.
    + rewrite inject_Z_plus, inject_Z_opp. change (inject_Z 1) with 1. lra.
Qed.

Lemma round_half_up_nonneg (x : Q) : 0 <= x -> (0 <= round_half_up x)%Z.
Proof.
  intros H. unfold round_half_up.
  apply Qle_bool_iff in H. rewrite H. apply Qle_bool_iff in H.
  change 0%Z with (Qfloor 0). apply Qfloor_resp_le. lra.
Qed.

Lemma round_half_up_opp (x : Q) :
  round_half_up (- x) = (- round_half_up x)%Z.
Proof.
  unfold round_half_up.
  destruct (Qle_bool 0 x) eqn:Hx; destruct (Qle_bool 0 (- x)) eqn:Hy.
  - apply Qle_bool_iff in Hx, Hy.
    assert (E : x == 0) by lra.
    rewrite (Qfloor_comp (- x + (1 # 2)) (1 # 2)) by lra.
    rewrite (Qfloor_comp (x + (1 # 2)) (1 # 2)) by lra.
    reflexivity.
  - rewrite (Qfloor_comp (- - x + (1 # 2)) (x + (1 # 2))) by lra.
    reflexivity.
  - lia.
  - assert (~ 0 <= x) by (rewrite <- Qle_bool_iff; congruence).
    assert (~ 0 <= - x) by (rewrite <- Qle_bool_iff; congruence).
    lra.
Qed.

Lemma round_half_up_mono (x y : Q) :
  x <= y -> (round_half_up x <= round_half_up y)%Z.
Proof.
  intros Hxy.
  destruct (Qlt_le_dec x 0) as [Hx|Hx]; destruct (Qlt_le_dec y 0) as [Hy|Hy].
  - rewrite (round_half_up_comp x (- - x)) by lra.
    rewrite (round_half_up_comp y (- - y)) by lra.
    rewrite (round_half_up_opp (- x)), (round_half_up_opp (- y)).
    assert (Hx' : Qle_bool 0 (- x) = true) by (apply Qle_bool_iff; lra).
    assert (Hy' : Qle_bool 0 (- y) = true) by (apply Qle_bool_iff; lra).
    unfold round_half_up at 1 2. rewrite Hx', Hy'.
    assert ((Qfloor (- y + (1 # 2)) <= Qfloor (- x + (1 # 2)))%Z);
      [apply Qfloor_resp_le; lra | lia].
  - pose proof (round_half_up_nonneg y Hy).
    pose proof (round_half_up_nonneg (- x) ltac:(lra)) as Hn.
    rewrite round_half_up_opp in Hn. lia.
  - lra.
  - apply Qle_bool_iff in Hx, Hy. unfold round_half_up. rewrite Hx, Hy.
    apply Qfloor_resp_le. lra.
Qed.

(** Powers of ten. *)

Lemma ten_neq_0 : ~ 10 == 0.
Proof. discriminate. Qed.

Lemma pow10_pos (k : Z) : 0 < 10 ^ k.
Proof. apply Qpower_0_lt. reflexivity. Qed.

Lemma pow10_plus (a b : Z) : 10 ^ (a + b) == 10 ^ a * 10 ^ b.
Proof. apply Qpower_plus, ten_neq_0. Qed.

Lemma pow10_le (a b : Z) : (a <= b)%Z -> 10 ^ a <= 10 ^ b.
Proof. intros H. apply Qpower_le_compat_l; [exact H | discriminate]. Qed.

Lemma pow10_lt_inv (a b : Z) : 10 ^ a < 10 ^ b -> (a < b)%Z.
Proof. intros H. eapply Qpower_lt_compat_l_inv; [exact H | reflexivity]. Qed.

Lemma pow10_nonneg_Z (k : Z) :
  (0 <= k)%Z -> 10 ^ k == inject_Z (10 ^ k).
Proof. intros H. now rewrite Zpower_Qpower. Qed.

Lemma Qred_canon (q : Q) : Qred (Qred q) = Qred q.
Proof. apply Qred_complete, Qred_correct. Qed.

Lemma Qdiv_pow10_le (a b : Q) (k : Z) : a <= b -> a / 10 ^ k <= b / 10 ^ k.
Proof.
  intros H. unfold Qdiv. apply Qmult_le_compat_r; [exact H|].
  apply Qlt_le_weak, Qinv_lt_0_compat, pow10_pos.
Qed.

Lemma round_dp_correct (dp : Z) (q : Q) :
  round_dp dp q == inject_Z (round_half_up (q * 10 ^ dp)) / 10 ^ dp.
Proof. apply Qred_correct. Qed.

Lemma round_dp_comp (dp : Z) (x y : Q) :
  x == y -> round_dp dp x = round_dp dp y.
Proof.
  intros H. unfold round_dp.
  rewrite (round_half_up_comp (x * 10 ^ dp) (y * 10 ^ dp)); [reflexivity|].
  now rewrite H.
Qed.

Lemma round_dp_canon (dp : Z) (q : Q) : Qred (round_dp dp q) = round_dp dp q.
Proof. apply Qred_canon. Qed.

Lemma round_dp_mono (dp : Z) (x y : Q) :
  x <= y -> round_dp dp x <= round_dp dp y.
Proof.
  intros H. rewrite !round_dp_correct.
  apply Qdiv_pow10_le. rewrite <- Zle_Qle.
  apply round_half_up_mono.
  apply Qmult_le_compat_r; [exact H|]. apply Qlt_le_weak, pow10_pos.
Qed.

Lemma round_dp_opp (dp : Z) (x : Q) : round_dp dp (- x) == - round_dp dp x.
Proof.
  rewrite !round_dp_correct.
  rewrite (round_half_up_comp (- x * 10 ^ dp) (- (x * 10 ^ dp))) by ring.
  rewrite round_half_up_opp, inject_Z_opp.
  field. apply Qpower_not_0, ten_neq_0.
Qed.

(** A value on the grid of step [10^-dp] is left unchanged. *)
Lemma round_dp_grid (dp : Z) (q : Q) (n : Z) :
  q * 10 ^ dp == inject_Z n -> round_dp dp q == q.
Proof.
  intros H. rewrite round_dp_correct.
  rewrite (round_half_up_comp _ _ H), round_half_up_Z, <- H.
  field. apply Qpower_not_0, ten_neq_0.
Qed.

Lemma round_dp_zero (dp : Z) (q : Q) : q == 0 -> round_dp dp q = 0.
Proof.
  intros H. rewrite (round_dp_comp dp q 0 H). unfold round_dp.
  rewrite (round_half_up_comp (0 * 10 ^ dp) (inject_Z 0)) by ring.
  rewrite round_half_up_Z.
  transitivity (Qred 0); [|reflexivity]. apply Qred_complete.
  unfold Qdiv. ring.
Qed.

Lemma exponent_from_spec (fuel : nat) :
  forall (e : Z) (x : Q),
    x < 10 ^ (e + 1) -> 10 ^ (e - Z.of_nat fuel) <= x ->
    10 ^ exponent_from fuel e x <= x /\ x < 10 ^ (exponent_from fuel e x + 1).
Proof.
  induction fuel as [|fuel IH]; intros e x Hhi Hlo.
  - simpl in *. replace (e - 0)%Z with e in Hlo by lia. now split.
  - cbn [exponent_from].
    destruct (Qle_bool (10 ^ e) x) eqn:Hc.
    + apply Qle_bool_iff in Hc. now split.
    + assert (Hn : ~ 10 ^ e <= x) by (rewrite <- Qle_bool_iff; congruence).
      apply IH.
      * replace (e - 1 + 1)%Z with e by lia. now apply Qnot_le_lt.
      * replace (e - 1 - Z.of_nat fuel)%Z with (e - Z.of_nat (S fuel))%Z by lia.
        exact Hlo.
Qed.

Lemma Zpow_2_le_10 (k : Z) : (0 <= k)%Z -> (2 ^ k <= 10 ^ k)%Z.
Proof. intros H. apply Z.pow_le_mono_l. lia. Qed.

Lemma Zlt_pow10_log2 (a : Z) : (0 < a)%Z -> (a < 10 ^ (Z.log2 a + 1))%Z.
Proof.
  intros H.
  pose proof (Z.log2_spec a H) as [_ Hu].
  pose proof (Z.log2_nonneg a).
  pose proof (Zpow_2_le_10 (Z.log2 a + 1) ltac:(lia)).
  unfold Z.succ in Hu. lia.
Qed.

Lemma exponent_spec (q : Q) :
  ~ q == 0 ->
  10 ^ exponent q <= Qabs q /\ Qabs q < 10 ^ (exponent q + 1).
Proof.
  intros Hq. unfold exponent.
  destruct q as [n d]. cbn [Qnum Qden].
  assert (Hn : (0 < Z.abs n)%Z).
  { destruct (Z.eq_dec n 0) as [->|]; [|lia]. exfalso. apply Hq. reflexivity. }
  pose proof (Z.log2_nonneg (Z.abs n)) as Hhi.
  pose proof (Z.log2_nonneg (Z.pos d)) as Hlo.
  apply exponent_from_spec.
  - rewrite pow10_nonneg_Z by lia.
    pose proof (Zlt_pow10_log2 (Z.abs n) Hn) as Hu.
    simpl Qabs. unfold Qlt. cbn [Qnum Qden inject_Z]. nia.
  - rewrite Z2Nat.id by lia.
    replace (Z.log2 (Z.abs n) - (Z.log2 (Z.abs n) + (Z.log2 (Z.pos d) + 1)))%Z
      with (- (Z.log2 (Z.pos d) + 1))%Z by lia.
    rewrite Qpower_opp, pow10_nonneg_Z by lia.
    pose proof (Zlt_pow10_log2 (Z.pos d) ltac:(lia)) as Hu.
    destruct (10 ^ (Z.log2 (Z.pos d) + 1))%Z as [|D|D] eqn:HD; try lia.
    simpl Qabs. unfold Qle. cbn [Qnum Qden inject_Z Qinv]. nia.
Qed.

Lemma exponent_unique (x : Q) (e e' : Z) :
  10 ^ e <= x -> x < 10 ^ (e + 1) ->
  10 ^ e' <= x -> x < 10 ^ (e' + 1) -> e = e'.
Proof.
  intros H1 H2 H3 H4.
  pose proof (pow10_lt_inv _ _ (Qle_lt_trans _ _ _ H1 H4)).
  pose proof (pow10_lt_inv _ _ (Qle_lt_trans _ _ _ H3 H2)).
  lia.
Qed.

Lemma exponent_intro (q : Q) (e : Z) :
  10 ^ e <= Qabs q -> Qabs q < 10 ^ (e + 1) -> exponent q = e.
Proof.
  intros H1 H2.
  assert (Hq : ~ q == 0).
  { intros E. rewrite E in H1. pose proof (pow10_pos e).
    change (Qabs 0) with 0 in H1. lra. }
  destruct (exponent_spec q Hq) as [H3 H4].
  eapply exponent_unique; eassumption.
Qed.

Lemma exponent_comp (x y : Q) :
  x == y -> ~ x == 0 -> exponent x = exponent y.
Proof.
  intros E Hx.
  destruct (exponent_spec x Hx) as [H1 H2].
  symmetry. apply exponent_intro; now rewrite <- E.
Qed.

Lemma exponent_opp (x : Q) : ~ x == 0 -> exponent (- x) = exponent x.
Proof.
  intros Hx. destruct (exponent_spec x Hx) as [H1 H2].
  apply exponent_intro; now rewrite Qabs_opp.
Qed.

Lemma exponent_scale (x : Q) (k : Z) :
  ~ x == 0 -> exponent (x * 10 ^ k) = (exponent x + k)%Z.
Proof.
  intros Hx. destruct (exponent_spec x Hx) as [H1 H2].
  pose proof (pow10_pos k) as Hk.
  apply exponent_intro; rewrite Qabs_Qmult, (Qabs_pos (10 ^ k)) by lra.
  - rewrite pow10_plus. apply Qmult_le_compat_r; lra.
  - replace (exponent x + k + 1)%Z with (exponent x + 1 + k)%Z by lia.
    rewrite pow10_plus. apply Qmult_lt_compat_r; lra.
Qed.

Lemma finalise_zero (sd : Z) (q : Q) : q == 0 -> finalise sd q = 0.
Proof.
  intros H. unfold finalise. apply Qeq_bool_iff in H. now rewrite H.
Qed.

Lemma finalise_nonzero (sd : Z) (q : Q) :
  ~ q == 0 -> finalise sd q = round_dp (sd - (exponent q + 1)) q.
Proof.
  intros H. unfold finalise.
  destruct (Qeq_bool q 0) eqn:E; [|reflexivity].
  apply Qeq_bool_iff in E. contradiction.
Qed.

Lemma Qeq_0_dec (q : Q) : {q == 0} + {~ q == 0}.
Proof. apply Qeq_dec. Qed.

Lemma finalise_comp (sd : Z) (x y : Q) :
  x == y -> finalise sd x = finalise sd y.
Proof.
  intros E. destruct (Qeq_0_dec x) as [Hx|Hx].
  - rewrite !finalise_zero; [reflexivity | now rewrite <- E | exact Hx].
  - assert (Hy : ~ y == 0) by now rewrite <- E.
    rewrite !finalise_nonzero by assumption.
    rewrite (exponent_comp x y E Hx). now apply round_dp_comp.
Qed.

Lemma finalise_canon (sd : Z) (q : Q) : Qred (finalise sd q) = finalise sd q.
Proof.
  destruct (Qeq_0_dec q) as [Hq|Hq].
  - now rewrite finalise_zero.
  - rewrite finalise_nonzero by assumption. apply round_dp_canon.
Qed.

Lemma finalise_opp (sd : Z) (x : Q) : finalise sd (- x) == - finalise sd x.
Proof.
  destruct (Qeq_0_dec x) as [Hx|Hx].
  - rewrite !finalise_zero; [reflexivity | exact Hx | lra].
  - assert (Hy : ~ - x == 0) by lra.
    rewrite !finalise_nonzero by assumption.
    rewrite exponent_opp by assumption. apply round_dp_opp.
Qed.

(** [toDecimalPlaces] rounds at the digit of weight [10^-dp]. *)
Lemma finalise_dp (dp : Z) (q : Q) :
  finalise (dp + exponent q + 1) q = round_dp dp q.
Proof.
  destruct (Qeq_0_dec q) as [Hq|Hq].
  - now rewrite finalise_zero, round_dp_zero.
  - rewrite finalise_nonzero by assumption. f_equal. lia.
Qed.

Lemma round_dp_pow10 (dp e : Z) :
  (0 <= e + dp)%Z -> round_dp dp (10 ^ e) == 10 ^ e.
Proof.
  intros H. apply (round_dp_grid dp (10 ^ e) (10 ^ (e + dp))).
  now rewrite <- pow10_plus, pow10_nonneg_Z.
Qed.

Lemma finalise_pos_bounds (sd : Z) (x : Q) :
  (1 <= sd)%Z -> 0 < x ->
  10 ^ exponent x <= finalise sd x /\ finalise sd x <= 10 ^ (exponent x + 1).
Proof.
  intros Hsd Hx.
  assert (Hn : ~ x == 0) by lra.
  destruct (exponent_spec x Hn) as [H1 H2].
  rewrite Qabs_pos in H1, H2 by lra.
  rewrite finalise_nonzero by assumption.
  set (e := exponent x) in *. split.
  - rewrite <- (round_dp_pow10 (sd - (e + 1)) e) at 1 by lia.
    now apply round_dp_mono.
  - rewrite <- (round_dp_pow10 (sd - (e + 1)) (e + 1)) at 1 by lia.
    apply round_dp_mono. lra.
Qed.

Lemma finalise_pos (sd : Z) (x : Q) :
  (1 <= sd)%Z -> 0 < x -> 0 < finalise sd x.
Proof.
  intros Hsd Hx. destruct (finalise_pos_bounds sd x Hsd Hx) as [H _].
  pose proof (pow10_pos (exponent x)). lra.
Qed.

Lemma finalise_neg (sd : Z) (x : Q) :
  (1 <= sd)%Z -> x < 0 -> finalise sd x < 0.
Proof.
  intros Hsd Hx.
  pose proof (finalise_pos sd (- x) Hsd ltac:(lra)) as H.
  rewrite finalise_opp in H. lra.
Qed.

Lemma finalise_mono_pos (sd : Z) (x y : Q) :
  (1 <= sd)%Z -> 0 < x -> x <= y -> finalise sd x <= finalise sd y.
Proof.
  intros Hsd Hx Hxy.
  assert (Hy : 0 < y) by lra.
  destruct (finalise_pos_bounds sd x Hsd Hx) as [_ Hxu].
  destruct (finalise_pos_bounds sd y Hsd Hy) as [Hyl _].
  destruct (exponent_spec x ltac:(lra)) as [H1 _].
  destruct (exponent_spec y ltac:(lra)) as [_ H4].
  rewrite Qabs_pos in H1, H4 by lra.
  assert (Hle : (exponent x < exponent y + 1)%Z).
  { apply pow10_lt_inv. lra. }
  destruct (Z.eq_dec (exponent x) (exponent y)) as [E|NE].
  - rewrite !finalise_nonzero by lra. rewrite E. now apply round_dp_mono.
  - pose proof (pow10_le (exponent x + 1) (exponent y) ltac:(lia)). lra.
Qed.

(** Rounding to significant digits is monotone. *)
Lemma finalise_mono (sd : Z) (x y : Q) :
  (1 <= sd)%Z -> x <= y -> finalise sd x <= finalise sd y.
Proof.
  intros Hsd Hxy.
  destruct (Q_dec x 0) as [[Hx|Hx]|Hx]; destruct (Q_dec y 0) as [[Hy|Hy]|Hy];
    try lra.
  - pose proof (finalise_mono_pos sd (- y) (- x) Hsd ltac:(lra) ltac:(lra))
      as H.
    rewrite !finalise_opp in H. lra.
  - pose proof (finalise_neg sd x Hsd Hx).
    pose proof (finalise_pos sd y Hsd Hy).
    lra.
  - pose proof (finalise_neg sd x Hsd Hx). rewrite (finalise_zero sd y Hy). lra.
  - now apply finalise_mono_pos.
  - rewrite (finalise_zero sd x Hx).
    pose proof (finalise_pos sd y Hsd Hy). lra.
  - rewrite (finalise_zero sd x Hx), (finalise_zero sd y Hy). lra.
Qed.

Lemma finalise_idem_pos (sd : Z) (x : Q) :
  (1 <= sd)%Z -> 0 < x -> finalise sd (finalise sd x) == finalise sd x.
Proof.
  intros Hsd Hx.
  destruct (finalise_pos_bounds sd x Hsd Hx) as [Hl Hu].
  pose proof (finalise_pos sd x Hsd Hx) as Hp.
  pose proof (finalise_nonzero sd x ltac:(lra)) as Hf.
  set (y := finalise sd x) in *. set (e := exponent x) in *.
  destruct (Qlt_le_dec y (10 ^ (e + 1))) as [Hlt|Hge].
  - assert (Ey : exponent y = e).
    { apply exponent_intro; rewrite Qabs_pos; lra. }
    rewrite (finalise_nonzero sd y) by lra. rewrite Ey.
    apply (round_dp_grid _ _ (round_half_up (x * 10 ^ (sd - (e + 1))))).
    rewrite Hf, round_dp_correct. field. apply Qpower_not_0, ten_neq_0.
  - assert (Ey : y == 10 ^ (e + 1)) by lra.
    rewrite (finalise_comp sd y _ Ey).
    assert (Ee : exponent (10 ^ (e + 1)) = (e + 1)%Z).
    { pose proof (pow10_pos (e + 1)).
      apply exponent_intro; rewrite Qabs_pos by lra; [lra|].
      apply Qpower_lt_compat_l; [lia | reflexivity]. }
    pose proof (pow10_pos (e + 1)).
    rewrite finalise_nonzero by lra. rewrite Ee, Ey.
    apply round_dp_pow10. lia.
Qed.

(** Rounding to significant digits is idempotent. *)
Lemma finalise_idem (sd : Z) (x : Q) :
  (1 <= sd)%Z -> finalise sd (finalise sd x) == finalise sd x.
Proof.
  intros Hsd. destruct (Q_dec x 0) as [[Hx|Hx]|Hx].
  - pose proof (finalise_idem_pos sd (- x) Hsd ltac:(lra)) as H.
    rewrite (finalise_comp sd (finalise sd (- x)) (- finalise sd x)) in H
      by apply finalise_opp.
    rewrite !finalise_opp in H. lra.
  - now apply finalise_idem_pos.
  - rewrite (finalise_zero sd x Hx). now rewrite finalise_zero.
Qed.

(** Rounding to significant digits commutes with a shift of the decimal
    point. *)
Lemma finalise_scale (sd : Z) (x : Q) (k : Z) :
  finalise sd (x * 10 ^ k) == finalise sd x * 10 ^ k.
Proof.
  pose proof (pow10_pos k) as Hk.
  destruct (Qeq_0_dec x) as [Hx|Hx].
  - rewrite (finalise_zero sd x Hx), finalise_zero; [ring|].
    rewrite Hx. ring.
  - assert (Hy : ~ x * 10 ^ k == 0).
    { intros E. apply Qmult_integral in E. destruct E; [contradiction | lra]. }
    rewrite !finalise_nonzero by assumption.
    rewrite exponent_scale by assumption.
    rewrite !round_dp_correct.
    set (dp := (sd - (exponent x + 1))%Z).
    replace (sd - (exponent x + k + 1))%Z with (dp + - k)%Z by (unfold dp; lia).
    rewrite (round_half_up_comp (x * 10 ^ k * 10 ^ (dp + - k)) (x * 10 ^ dp)).
    + rewrite pow10_plus, Qpower_opp. field.
      split; apply Qpower_not_0, ten_neq_0.
    + rewrite pow10_plus, Qpower_opp. field. apply Qpower_not_0, ten_neq_0.
Qed.

End RoundingFacts.

(** * Properties of the Decimal operations and of the paths of the function *)

Module PathFacts.
Import Decimal RoundingFacts.

Lemma truthy_number (v : value) : truthy v = true -> exists n, v = num n.
Proof. destruct v; try discriminate. intros _. now eexists. Qed.

Lemma falsy_cases (v : value) :
  truthy v = false <->
  v = undefined \/ v = null \/ v = num NaN
  \/ exists q, v = num (Finite q) /\ q == 0.
Proof.
  split.
  - destruct v as [| |[|s|q]]; cbn; intros H; auto; try discriminate.
    right; right; right. exists q. split; [reflexivity|].
    apply Qeq_bool_iff. now destruct (Qeq_bool q 0).
  - intros [->|[->|[->|[q [-> Hq]]]]]; try reflexivity.
    cbn. apply Qeq_bool_iff in Hq. now rewrite Hq.
Qed.

Lemma discount_path_result promo spot wholesale tier weight tier0 cap :
  reachesDiscountPath (inputOf promo spot wholesale tier weight tier0 cap)
  = true ->
  let capped := capApplies promo spot wholesale tier weight tier0 cap in
  calculatePricesWithMarkupDiscount
    (inputOf promo spot wholesale tier weight tier0 cap) =
  Return
    {| originalPrice := toNumber (toDecimalPlaces 0 (tierPrice spot tier));
       calculatedPrice :=
         toNumber (toDecimalPlaces 0
           (if capped then
              minus (tier0PriceDecimal spot tier tier0)
                    (cappedDiscountAmount spot tier weight tier0 cap)
            else discountedFinalPrice promo spot wholesale tier));
       totalDiscount :=
         toNumber (toDecimalPlaces 0
           (if capped then cappedDiscountAmount spot tier weight tier0 cap
            else uncappedTotalDiscount promo spot wholesale tier tier0));
       totalDiscountPercent :=
         toNumber (toDecimalPlaces 2
           (if capped then ofNumber cap
            else uncappedPercent promo spot wholesale tier weight tier0)) |}.
Proof.
  unfold reachesDiscountPath. cbn [inputOf spotPrice markupByTier
    promoMarkupDiscount wholesaleMarkup actualMetalWeight].
  intros H.
  apply andb_prop in H as [H Hg]. apply andb_prop in H as [H Hw].
  apply andb_prop in H as [H Hp]. apply andb_prop in H as [Hs Ht].
  cbv zeta.
  unfold calculatePricesWithMarkupDiscount, inputOf.
  rewrite Hs, Ht, Hp, Hw, Hg. cbn [negb orb new bind].
  unfold capApplies, uncappedPercent, uncappedTotalDiscount,
    discountedFinalPrice, discountedHouseMarkup, markupDiscountRate,
    houseMarkup, cappedDiscountAmount, tier0Premium, meltValue, nabxPrice.
  fold (tierPrice spot tier).
  assert (E : (if truthy tier0 then new tier0 else Return (tierPrice spot tier))
              = Return (tier0PriceDecimal spot tier tier0)).
  { unfold tier0PriceDecimal. destruct tier0 as [| |n]; try reflexivity.
    cbn [new]. now destruct (truthy (num n)). }
  rewrite E. cbn [bind].
  match goal with |- context [if ?c then _ else _] => destruct c end;
    reflexivity.
Qed.

Lemma ofNumber_toNumber (x : Decimal.t) : ofNumber (toNumber x) = x.
Proof. now destruct x. Qed.

Lemma toDecimalPlaces_finite (dp : Z) (q : Q) :
  toDecimalPlaces dp (DFinite q) = DFinite (round_dp dp q).
Proof. cbn [toDecimalPlaces]. now rewrite finalise_dp. Qed.

Lemma greaterThan_irrefl (x : Decimal.t) : greaterThan x x = false.
Proof.
  destruct x as [|s|q]; unfold greaterThan; cbn [cmp]; try reflexivity.
  - now rewrite eqb_reflx.
  - assert (E : (q ?= q) = Eq) by (apply Qeq_alt; reflexivity). now rewrite E.
Qed.

Lemma greaterThan_finite (p q : Q) :
  greaterThan (DFinite p) (DFinite q) = false <-> p <= q.
Proof.
  unfold greaterThan. cbn [cmp]. rewrite Qle_alt.
  destruct (p ?= q); split; intros; congruence.
Qed.

Lemma greaterThan_finite_true (p q : Q) :
  greaterThan (DFinite p) (DFinite q) = true <-> q < p.
Proof.
  unfold greaterThan. cbn [cmp]. rewrite (Qgt_alt p q).
  destruct (p ?= q); split; intros; congruence.
Qed.

Lemma lessThan_finite_true (p q : Q) :
  lessThan (DFinite p) (DFinite q) = true <-> p < q.
Proof.
  unfold lessThan. cbn [cmp]. rewrite (Qlt_alt p q).
  destruct (p ?= q); split; intros; congruence.
Qed.

(** Rounding to decimal places never makes a value that was not greater
    than another one greater than it. *)
Lemma greaterThan_toDecimalPlaces (dp : Z) (x y : Decimal.t) :
  greaterThan x y = false ->
  greaterThan (toDecimalPlaces dp x) (toDecimalPlaces dp y) = false.
Proof.
  destruct x as [|s|p]; destruct y as [|s'|q]; try (intros H; exact H).
  rewrite !toDecimalPlaces_finite, !greaterThan_finite.
  apply round_dp_mono.
Qed.

(** A value that is not greater than [y] is not greater than a value that
    compares equal to [y]. *)
Lemma greaterThan_eq_r (x y z : Decimal.t) :
  greaterThan x y = false -> cmp y z = Some Eq -> greaterThan x z = false.
Proof.
  destruct x as [|[|]|p]; destruct y as [|[|]|q]; destruct z as [|[|]|r];
    try discriminate; try reflexivity.
  rewrite !greaterThan_finite. cbn [cmp]. intros Hpq [= E].
  apply Qeq_alt in E. now rewrite <- E.
Qed.

(** The two ways out of the function before the discount path. *)

Lemma fallback_result (i : CalculatePricesWithMarkupDiscountInput) :
  truthy (spotPrice i) = false \/ truthy (markupByTier i) = false ->
  calculatePricesWithMarkupDiscount i = Return fallback.
Proof.
  intros H. destruct i as [p s w t g t0 c]. cbn [spotPrice markupByTier] in H.
  unfold calculatePricesWithMarkupDiscount.
  destruct H as [H|H]; rewrite H; cbn [negb orb]; [reflexivity|].
  now rewrite orb_true_r.
Qed.

Lemma no_discount_result (i : CalculatePricesWithMarkupDiscountInput)
    (s t : number) :
  spotPrice i = num s -> markupByTier i = num t ->
  truthy (num s) = true -> truthy (num t) = true ->
  truthy (promoMarkupDiscount i) = false
  \/ truthy (wholesaleMarkup i) = false
  \/ truthy (actualMetalWeight i) = false ->
  let price := toNumber (toDecimalPlaces 0 (tierPrice s t)) in
  calculatePricesWithMarkupDiscount i =
  Return {| originalPrice := price;
            calculatedPrice := price;
            totalDiscount := zero;
            totalDiscountPercent := zero |}.
Proof.
  destruct i as [p s' w t' g t0 c].
  cbn [spotPrice markupByTier promoMarkupDiscount wholesaleMarkup
         actualMetalWeight].
  intros -> -> Hs Ht H. cbv zeta.
  unfold calculatePricesWithMarkupDiscount.
  rewrite Hs, Ht. cbn [negb orb new bind].
  assert (E : negb (truthy p) || negb (truthy w) || negb (truthy g) = true).
  { destruct H as [H|[H|H]]; rewrite H; cbn [negb];
      rewrite ?orb_true_r; reflexivity. }
  rewrite E. reflexivity.
Qed.

Lemma reaches_inputOf (i : CalculatePricesWithMarkupDiscountInput) :
  reachesDiscountPath i = true ->
  exists promo spot wholesale tier weight,
    i = {| promoMarkupDiscount := num promo;
           spotPrice := num spot;
           wholesaleMarkup := num wholesale;
           markupByTier := num tier;
           actualMetalWeight := num weight;
           tier0Price := tier0Price i;
           maximumPremiumDiscount := maximumPremiumDiscount i |}.
Proof.
  destruct i as [p s w t g t0 c]. unfold reachesDiscountPath.
  cbn [spotPrice markupByTier promoMarkupDiscount wholesaleMarkup
         actualMetalWeight tier0Price maximumPremiumDiscount].
  intros H.
  apply andb_prop in H as [H Hg]. apply andb_prop in H as [H Hw].
  apply andb_prop in H as [H Hp]. apply andb_prop in H as [Hs Ht].
  destruct (truthy_number _ Hs) as [s' ->].
  destruct (truthy_number _ Ht) as [t' ->].
  destruct (truthy_number _ Hp) as [p' ->].
  destruct (truthy_number _ Hw) as [w' ->].
  destruct (truthy_number _ Hg) as [g' ->].
  now exists p', s', w', t', g'.
Qed.

Lemma not_reaches (i : CalculatePricesWithMarkupDiscountInput) :
  reachesDiscountPath i = false ->
  (truthy (spotPrice i) = false \/ truthy (markupByTier i) = false)
  \/ (truthy (spotPrice i) = true /\ truthy (markupByTier i) = true
      /\ (truthy (promoMarkupDiscount i) = false
          \/ truthy (wholesaleMarkup i) = false
          \/ truthy (actualMetalWeight i) = false)).
Proof.
  unfold reachesDiscountPath.
  destruct (truthy (spotPrice i)), (truthy (markupByTier i)),
    (truthy (promoMarkupDiscount i)), (truthy (wholesaleMarkup i)),
    (truthy (actualMetalWeight i)); cbn; intros H; try discriminate; tauto.
Qed.

(** On the discount path [greaterThan(maximumPremiumDiscount)] builds a
    Decimal from the cap, and the constructor throws when it is absent. *)
Lemma discount_path_throws (i : CalculatePricesWithMarkupDiscountInput) :
  reachesDiscountPath i = true ->
  isNumber (maximumPremiumDiscount i) = false ->
  calculatePricesWithMarkupDiscount i =
  Throw (InvalidArgument (maximumPremiumDiscount i)).
Proof.
  intros Hr Hc.
  destruct (reaches_inputOf i Hr) as (p & s & w & t & g & E).
  rewrite E in Hr |- *. clear E.
  set (t0 := tier0Price i) in *. set (c := maximumPremiumDiscount i) in *.
  cbn [maximumPremiumDiscount].
  unfold reachesDiscountPath in Hr.
  cbn [spotPrice markupByTier promoMarkupDiscount wholesaleMarkup
         actualMetalWeight] in Hr.
  apply andb_prop in Hr as [H Hg]. apply andb_prop in H as [H Hw].
  apply andb_prop in H as [H Hp]. apply andb_prop in H as [Hs Ht].
  unfold calculatePricesWithMarkupDiscount.
  rewrite Hs, Ht, Hp, Hw, Hg. cbn [negb orb new bind].
  assert (E : exists d, (if truthy t0 then new t0
                         else Return (times (ofNumber s) (ofNumber t)))
                        = Return d).
  { destruct (truthy t0) eqn:Et; [|now eexists].
    destruct (truthy_number _ Et) as [n ->]. now eexists. }
  destruct E as [d ->]. cbn [bind].
  destruct c; try discriminate; reflexivity.
Qed.


End PathFacts.

(** * Finite amounts: the working precision along the discount path *)

Module FiniteFacts.
Import Decimal RoundingFacts PathFacts.

Lemma precision_pos : (1 <= precision)%Z.
Proof. unfold precision. lia. Qed.

Lemma rounded_mono (x y : Q) : x <= y -> roundResult x <= roundResult y.
Proof. apply finalise_mono, precision_pos. Qed.

Lemma rounded_idem (x : Q) : roundResult (roundResult x) == roundResult x.
Proof. apply finalise_idem, precision_pos. Qed.

Lemma rounded_nonneg (x : Q) : 0 <= x -> 0 <= roundResult x.
Proof.
  intros H. apply Qle_trans with (roundResult 0).
  - vm_compute. discriminate.
  - now apply rounded_mono.
Qed.

Lemma rounded_neg (x : Q) : x < 0 -> roundResult x < 0.
Proof. apply finalise_neg, precision_pos. Qed.

Lemma rounded_comp (x y : Q) : x == y -> roundResult x = roundResult y.
Proof. apply finalise_comp. Qed.

Lemma rounded_zero (x : Q) : x == 0 -> roundResult x = 0.
Proof. apply finalise_zero. Qed.

Lemma rounded_one : roundResult 1 == 1.
Proof. vm_compute. reflexivity. Qed.

(** Two canonical fractions that are equal as rationals are the same. *)
Lemma rounded_eq (x y : Q) :
  roundResult x == roundResult y -> roundResult x = roundResult y.
Proof.
  intros H. unfold roundResult in *.
  rewrite <- (finalise_canon precision x), <- (finalise_canon precision y).
  now apply Qred_complete.
Qed.

Lemma times_DFinite (a b : Q) :
  times (DFinite a) (DFinite b) = DFinite (roundResult (a * b)).
Proof. reflexivity. Qed.

Lemma plus_DFinite (a b : Q) :
  plus (DFinite a) (DFinite b) = DFinite (roundResult (a + b)).
Proof. reflexivity. Qed.

Lemma minus_DFinite (a b : Q) :
  minus (DFinite a) (DFinite b) = DFinite (roundResult (a - b)).
Proof. reflexivity. Qed.

Lemma dividedBy_DFinite (a b : Q) :
  ~ b == 0 ->
  dividedBy (DFinite a) (DFinite b) = DFinite (roundResult (a / b)).
Proof.
  intros H. cbn [dividedBy].
  destruct (Qeq_bool b 0) eqn:E; [|reflexivity].
  apply Qeq_bool_iff in E. contradiction.
Qed.

Lemma dividedBy_100 (a : Q) :
  dividedBy (DFinite a) (ofZ 100) = DFinite (roundResult (a / 100)).
Proof. apply dividedBy_DFinite. discriminate. Qed.

(** A finite product comes from finite factors and is rounded. *)
Lemma times_finite_inv (x y : Decimal.t) (q : Q) :
  times x y = DFinite q ->
  exists a b,
    x = DFinite a /\ y = DFinite b /\ q = roundResult (a * b).
Proof.
  destruct x as [|s|a]; destruct y as [|s'|b]; cbn [times];
    try discriminate.
  - destruct (Qeq_bool b 0); discriminate.
  - destruct (Qeq_bool a 0); discriminate.
  - intros [= <-]. now exists a, b.
Qed.

(** The clamped house markup is zero or positive. *)
Lemma houseMarkup_finite (s w t : Q) :
  exists h,
    houseMarkup (Finite s) (Finite w) (Finite t) = DFinite h /\ 0 <= h.
Proof.
  unfold houseMarkup, tierPrice, nabxPrice. cbn [ofNumber].
  rewrite !times_DFinite, minus_DFinite.
  destruct (lessThan _ (ofZ 0)) eqn:E.
  - exists (inject_Z 0). split; [reflexivity|]. apply Qle_refl.
  - eexists. split; [reflexivity|].
    destruct (Qlt_le_dec
                (roundResult (roundResult (s * t) - roundResult (s * w))) 0)
      as [Hn|Hp]; [|exact Hp].
    apply lessThan_finite_true in Hn. unfold ofZ in E.
    change (inject_Z 0) with 0 in E. congruence.
Qed.

(** A tier below wholesale has no house markup. *)
Lemma houseMarkup_below_wholesale (spot wholesale tier : number) :
  lessThan (tierPrice spot tier) (nabxPrice spot wholesale) = true ->
  houseMarkup spot wholesale tier = ofZ 0.
Proof.
  unfold houseMarkup.
  destruct (tierPrice spot tier) as [|[|]|a];
    destruct (nabxPrice spot wholesale) as [|[|]|b];
    try discriminate; try reflexivity.
  rewrite lessThan_finite_true. intros H.
  rewrite minus_DFinite.
  assert (Hn : roundResult (a - b) < 0).
  { apply rounded_neg. lra. }
  apply lessThan_finite_true in Hn.
  unfold ofZ. change (inject_Z 0) with 0. now rewrite Hn.
Qed.

Lemma tier0PriceDecimal_finite (s t : Q) (tier0 : value) :
  isInfinite tier0 = false ->
  exists ref, tier0PriceDecimal (Finite s) (Finite t) tier0 = DFinite ref.
Proof.
  unfold tier0PriceDecimal, tierPrice. cbn [ofNumber]. rewrite times_DFinite.
  destruct tier0 as [| |[|b|q]]; cbn [isInfinite]; intros H;
    try discriminate; try (now eexists).
  destruct (truthy (num (Finite q))); now eexists.
Qed.

Lemma plus_zero_product (spot wholesale : number) (z : Q) :
  z == 0 ->
  nabxPrice spot wholesale <> DNaN ->
  plus (nabxPrice spot wholesale) (DFinite z) = nabxPrice spot wholesale.
Proof.
  intros Hz Hn. destruct (nabxPrice spot wholesale) as [|b|q] eqn:E.
  - contradiction.
  - reflexivity.
  - unfold nabxPrice in E.
    destruct (times_finite_inv _ _ _ E) as (a & b & _ & _ & ->).
    rewrite plus_DFinite. f_equal.
    rewrite (rounded_comp _ (roundResult (a * b))) by (rewrite Hz; ring).
    apply rounded_eq, rounded_idem.
Qed.

Lemma rounded_times_100 (x : Q) :
  roundResult (x * 100) == roundResult x * 100.
Proof.
  rewrite (rounded_comp (x * 100) (x * 10 ^ 2)) by reflexivity.
  unfold roundResult. rewrite finalise_scale. reflexivity.
Qed.

Lemma rounded_div_100 (x : Q) :
  roundResult (x / 100) == roundResult x / 100.
Proof.
  rewrite (rounded_comp (x / 100) (x * 10 ^ (-2))) by reflexivity.
  unfold roundResult. rewrite finalise_scale. reflexivity.
Qed.

Lemma Qdiv_100_mult (x : Q) : x / 100 * 100 == x.
Proof. field. Qed.

(** The discounted final price as the function computes it. *)
Lemma discountedFinalPrice_finite (p s w t h : Q) :
  houseMarkup (Finite s) (Finite w) (Finite t) = DFinite h ->
  discountedFinalPrice (Finite p) (Finite s) (Finite w) (Finite t)
  = DFinite (finalPriceOf p (s * w) h).
Proof.
  intros Hh.
  unfold discountedFinalPrice, discountedHouseMarkup, markupDiscountRate,
    nabxPrice.
  rewrite Hh. cbn [ofNumber]. rewrite dividedBy_100. unfold ofZ.
  now rewrite minus_DFinite, !times_DFinite, plus_DFinite.
Qed.

Lemma finalPriceOf_rounded (p sw h : Q) :
  roundResult (finalPriceOf p sw h) == finalPriceOf p sw h.
Proof. apply rounded_idem. Qed.


(** With a promotion of at most 100 per cent the discounted price before the
    cap is at least the wholesale price. *)
Lemma finalPriceOf_at_least_wholesale (p sw h : Q) :
  p <= 100 -> 0 <= h -> roundResult sw <= finalPriceOf p sw h.
Proof.
  intros Hp Hh. unfold finalPriceOf.
  assert (A : roundResult (p / 100) <= 1).
  { rewrite <- rounded_one. apply rounded_mono.
    pose proof (Qdiv_100_mult p). set (y := p / 100) in *. lra. }
  assert (B : 0 <= roundResult (1 - roundResult (p / 100))).
  { apply rounded_nonneg. lra. }
  assert (C : 0 <= roundResult (h * roundResult (1 - roundResult (p / 100)))).
  { apply rounded_nonneg. now apply Qmult_le_0_compat. }
  rewrite <- (rounded_idem sw) at 1. apply rounded_mono. lra.
Qed.

(** When the cap applies, the capped amount is at most the total discount
    it replaces. *)
Lemma capped_amount_at_most_discount (c P x : Q) :
  representable c -> 0 < P ->
  c < roundResult (roundResult (roundResult x / P) * inject_Z 100) ->
  roundResult (roundResult (P * c) / inject_Z 100) <= roundResult x.
Proof.
  intros Hc HP Hgt. change (inject_Z 100) with 100 in *.
  unfold representable in Hc.
  assert (A : c / 100 < roundResult x / P).
  { apply Qnot_le_lt. intros Hle.
    assert (H1 : roundResult (roundResult x / P)
                 <= roundResult (c / 100)) by now apply rounded_mono.
    rewrite rounded_div_100, Hc in H1.
    assert (H2 : roundResult (roundResult (roundResult x / P) * 100)
                 <= roundResult c).
    { apply rounded_mono.
      pose proof (Qdiv_100_mult c). set (y := c / 100) in *. lra. }
    rewrite Hc in H2. lra. }
  assert (B : P * c <= roundResult x * 100).
  { assert (E : roundResult x == (roundResult x / P) * P)
      by (field; lra).
    pose proof (Qdiv_100_mult c) as E'.
    set (q := roundResult x / P) in *. set (y := c / 100) in *.
    rewrite E, <- E'. nra. }
  assert (C : roundResult (P * c) <= roundResult x * 100).
  { rewrite <- (rounded_idem x), <- rounded_times_100.
    now apply rounded_mono. }
  rewrite <- (rounded_idem x). apply rounded_mono.
  pose proof (Qdiv_100_mult (roundResult (P * c))).
  set (y := roundResult (P * c) / 100) in *. lra.
Qed.

(** Rounding to an integer. *)
Lemma round_dp_0 (x : Q) : round_dp 0 x = inject_Z (round_half_up x).
Proof.
  unfold round_dp.
  rewrite (round_half_up_comp (x * 10 ^ 0) x) by (simpl; ring).
  transitivity (Qred (inject_Z (round_half_up x))).
  - apply Qred_complete. change (10 ^ 0) with 1. field.
  - apply Qcanon.Qred_identity, Z.gcd_1_r.
Qed.

(** When the exact product of the spot price and the tier markup has at most
    [precision] significant digits, the rounded tier price is that exact
    product rounded half-up to an integer. *)
Lemma tier_price_exact (s t : Q) :
  representable (s * t) ->
  toNumber (toDecimalPlaces 0 (tierPrice (Finite s) (Finite t)))
  = Finite (inject_Z (round_half_up (s * t))).
Proof.
  intros H. unfold tierPrice. cbn [ofNumber].
  rewrite times_DFinite, toDecimalPlaces_finite. cbn [toNumber].
  f_equal. rewrite <- round_dp_0. apply round_dp_comp. exact H.
Qed.

End FiniteFacts.

(** * The claims *)

Import Decimal RoundingFacts PathFacts FiniteFacts.

(** C1, as amended.  On the discount path the returned
    [totalDiscountPercent] is never greater than [maximumPremiumDiscount]
    rounded half-up to two decimal places; when the percentage computed before
    the cap is greater than [maximumPremiumDiscount], it is exactly
    [maximumPremiumDiscount] rounded half-up to two decimal places; and when
    that rounding leaves the cap unchanged (a cap of at most two decimal
    places), the result is never greater than the cap itself. *)
Theorem percent_never_exceeds_rounded_cap
    (promo spot wholesale tier weight : number) (tier0 : value) (cap : number) :
  reachesDiscountPath (inputOf promo spot wholesale tier weight tier0 cap)
  = true ->
  exists r,
    calculatePricesWithMarkupDiscount
      (inputOf promo spot wholesale tier weight tier0 cap) = Return r
    /\ greaterThan (ofNumber (totalDiscountPercent r))
                   (toDecimalPlaces 2 (ofNumber cap)) = false
    /\ (greaterThan (uncappedPercent promo spot wholesale tier weight tier0)
                    (ofNumber cap) = true ->
        totalDiscountPercent r = toNumber (toDecimalPlaces 2 (ofNumber cap)))
    /\ (cmp (toDecimalPlaces 2 (ofNumber cap)) (ofNumber cap) = Some Eq ->
        greaterThan (ofNumber (totalDiscountPercent r)) (ofNumber cap) = false).
Proof.
  intros Hr. rewrite (discount_path_result _ _ _ _ _ _ _ Hr).
  eexists. split; [reflexivity|]. cbn [totalDiscountPercent].
  fold (capApplies promo spot wholesale tier weight tier0 cap).
  assert (Hle : greaterThan
                  (ofNumber (toNumber (toDecimalPlaces 2
                     (if capApplies promo spot wholesale tier weight tier0 cap
                      then ofNumber cap
                      else uncappedPercent promo spot wholesale tier weight
                                           tier0))))
                  (toDecimalPlaces 2 (ofNumber cap)) = false).
  { rewrite ofNumber_toNumber.
    destruct (capApplies promo spot wholesale tier weight tier0 cap) eqn:Hc.
    - apply greaterThan_irrefl.
    - apply greaterThan_toDecimalPlaces. exact Hc. }
  split; [exact Hle|]. split.
  - unfold capApplies. now intros ->.
  - intros E. exact (greaterThan_eq_r _ _ _ Hle E).
Qed.

Lemma percent_never_exceeds_rounded_cap_witness :
  exists r,
    calculatePricesWithMarkupDiscount cap_example = Return r
    /\ greaterThan (ofNumber (totalDiscountPercent r))
                   (toDecimalPlaces 2 (ofNumber (dec 33335 1000))) = false
    /\ (greaterThan
          (uncappedPercent (dec 20 1) (dec 2000 1) (dec 95 100) (dec 11 10)
                           (dec 1 1) (num (dec 2300 1)))
          (ofNumber (dec 33335 1000)) = true ->
        totalDiscountPercent r
        = toNumber (toDecimalPlaces 2 (ofNumber (dec 33335 1000))))
    /\ (cmp (toDecimalPlaces 2 (ofNumber (dec 33335 1000)))
             (ofNumber (dec 33335 1000)) = Some Eq ->
        greaterThan (ofNumber (totalDiscountPercent r))
                    (ofNumber (dec 33335 1000)) = false).
Proof.
  apply (percent_never_exceeds_rounded_cap
           (dec 20 1) (dec 2000 1) (dec 95 100) (dec 11 10) (dec 1 1)
           (num (dec 2300 1)) (dec 33335 1000)).
  reflexivity.
Defined.

(** C1 as stated fails: with a cap of 33.335 per cent the function returns
    33.34 per cent (1667/50), which is greater than the cap. *)
Lemma percent_exceeds_cap_of_three_decimals :
  reachesDiscountPath cap_example = true
  /\ exists r,
       calculatePricesWithMarkupDiscount cap_example = Return r
       /\ totalDiscountPercent r = Finite (1667 # 50)
       /\ greaterThan (ofNumber (totalDiscountPercent r))
                      (ofNumber (dec 33335 1000)) = true.
Proof.
  split; [reflexivity|]. eexists. split; [vm_compute; reflexivity|].
  split; vm_compute; reflexivity.
Qed.

(** C2.  When [spotPrice] or [markupByTier] is falsy ([undefined], [null],
    NaN or zero, see [falsy_cases]) the function returns the fixed result:
    both prices equal to [ONE_MILLION_IN_CENTS], which is 100000000, and both
    discounts zero. *)
Theorem missing_price_gives_fallback
    (i : CalculatePricesWithMarkupDiscountInput) :
  truthy (spotPrice i) = false \/ truthy (markupByTier i) = false ->
  calculatePricesWithMarkupDiscount i =
  Return {| originalPrice := ONE_MILLION_IN_CENTS;
            calculatedPrice := ONE_MILLION_IN_CENTS;
            totalDiscount := Finite 0;
            totalDiscountPercent := Finite 0 |}
  /\ ONE_MILLION_IN_CENTS = Finite (inject_Z 100000000).
Proof.
  intros H. split; [|reflexivity]. exact (fallback_result i H).
Qed.

Lemma missing_price_gives_fallback_witness :
  calculatePricesWithMarkupDiscount test_zero_spot_input =
  Return {| originalPrice := ONE_MILLION_IN_CENTS;
            calculatedPrice := ONE_MILLION_IN_CENTS;
            totalDiscount := Finite 0;
            totalDiscountPercent := Finite 0 |}
  /\ ONE_MILLION_IN_CENTS = Finite (inject_Z 100000000).
Proof.
  apply (missing_price_gives_fallback test_zero_spot_input).
  left. reflexivity.
Defined.



(** C4.  On the example of the documentation (spot 2000, tier markup 1.1,
    promotion 20, wholesale markup 0.95, weight 1.0, cap 50, no tier0 price)
    the function returns [originalPrice = 2200] and
    [calculatedPrice = 2140] (with a total discount of 60, that is 30 per
    cent). *)
Theorem doc_example_prices :
  calculatePricesWithMarkupDiscount doc_example =
  Return {| originalPrice := Finite (inject_Z 2200);
            calculatedPrice := Finite (inject_Z 2140);
            totalDiscount := Finite (inject_Z 60);
            totalDiscountPercent := Finite (inject_Z 30) |}.
Proof. vm_compute. reflexivity. Qed.

(** C5, as amended.  On the discount path, when the tier price
    [spotPrice * markupByTier] is less than the wholesale price
    [spotPrice * wholesaleMarkup] (both as the Decimal products the function
    forms) and the cap does not apply, the house markup is zero and
    [calculatedPrice] is the wholesale price rounded half-up to an integer,
    whatever the finite value of [promoMarkupDiscount]. *)
Theorem below_wholesale_uncapped_price
    (p : Q) (spot wholesale tier weight : number) (tier0 : value)
    (cap : number) :
  reachesDiscountPath
    (inputOf (Finite p) spot wholesale tier weight tier0 cap) = true ->
  lessThan (tierPrice spot tier) (nabxPrice spot wholesale) = true ->
  capApplies (Finite p) spot wholesale tier weight tier0 cap = false ->
  exists r,
    calculatePricesWithMarkupDiscount
      (inputOf (Finite p) spot wholesale tier weight tier0 cap) = Return r
    /\ houseMarkup spot wholesale tier = ofZ 0
    /\ calculatedPrice r
       = toNumber (toDecimalPlaces 0 (nabxPrice spot wholesale)).
Proof.
  intros Hr Hlt Hcap.
  rewrite (discount_path_result _ _ _ _ _ _ _ Hr). rewrite Hcap.
  eexists. split; [reflexivity|].
  pose proof (houseMarkup_below_wholesale _ _ _ Hlt) as Hh.
  split; [exact Hh|]. cbn [calculatedPrice]. do 2 f_equal.
  unfold discountedFinalPrice, discountedHouseMarkup, markupDiscountRate.
  rewrite Hh. cbn [ofNumber]. rewrite dividedBy_100.
  unfold ofZ. rewrite minus_DFinite, times_DFinite.
  apply plus_zero_product.
  - rewrite rounded_zero; [reflexivity|]. change (inject_Z 0) with 0. ring.
  - intros E. rewrite E in Hlt.
    destruct (tierPrice spot tier) as [|[|]|a]; discriminate.
Qed.

Lemma below_wholesale_uncapped_price_witness :
  exists r,
    calculatePricesWithMarkupDiscount test_below_wholesale_input = Return r
    /\ houseMarkup (dec 4944 1) (dec 1119394649 1000000000) (dec 111 100)
       = ofZ 0
    /\ calculatedPrice r
       = toNumber (toDecimalPlaces 0
           (nabxPrice (dec 4944 1) (dec 1119394649 1000000000))).
Proof.
  apply (below_wholesale_uncapped_price 20
           (dec 4944 1) (dec 1119394649 1000000000) (dec 111 100) (dec 1 1)
           undefined (dec 70 1)).
  - reflexivity.
  - vm_compute. reflexivity.
  - vm_compute. reflexivity.
Defined.

(** C5 as stated fails when the cap applies: a tier priced at 1000 below a
    wholesale price of 1100, with a reference price of 10000, a melt value
    of 1000 and a cap of 50 per cent, is sold at 10000 - 4500 = 5500 and not
    at 1100. *)
Lemma cap_overrides_wholesale_price :
  reachesDiscountPath clamp_example = true
  /\ lessThan (tierPrice (dec 1000 1) (dec 1 1))
              (nabxPrice (dec 1000 1) (dec 11 10)) = true
  /\ houseMarkup (dec 1000 1) (dec 11 10) (dec 1 1) = ofZ 0
  /\ toNumber (toDecimalPlaces 0 (nabxPrice (dec 1000 1) (dec 11 10)))
     = Finite (inject_Z 1100)
  /\ exists r,
       calculatePricesWithMarkupDiscount clamp_example = Return r
       /\ calculatedPrice r = Finite (inject_Z 5500)
       /\ calculatedPrice r
          <> toNumber (toDecimalPlaces 0 (nabxPrice (dec 1000 1) (dec 11 10))).
Proof.
  split; [reflexivity|]. split; [vm_compute; reflexivity|].
  split; [vm_compute; reflexivity|]. split; [vm_compute; reflexivity|].
  eexists. split; [vm_compute; reflexivity|]. split; [reflexivity|].
  vm_compute. discriminate.
Qed.









(** C9, as amended.  For a discount-path input with finite fields,
    [0 < promoMarkupDiscount <= 100], [maximumPremiumDiscount >= 0] and a
    tier0 premium that is not negative, [calculatedPrice] is at least the
    wholesale price rounded half-up to an integer: always when the cap does
    not apply, and when it applies provided the cap has at most twenty
    significant digits and the subtraction
    [tier0PriceDecimal.minus(discountedFinalPrice)] is exact at twenty
    significant digits. *)
Theorem price_at_least_wholesale
    (p s w t g c : Q) (tier0 : value) :
  reachesDiscountPath
    (inputOf (Finite p) (Finite s) (Finite w) (Finite t) (Finite g) tier0
             (Finite c)) = true ->
  isInfinite tier0 = false ->
  0 < p -> p <= 100 -> 0 <= c ->
  finite_le (ofZ 0) (tier0Premium (Finite s) (Finite t) (Finite g) tier0) ->
  (capApplies (Finite p) (Finite s) (Finite w) (Finite t) (Finite g) tier0
              (Finite c) = true ->
   representable c
   /\ exactDifference
        (tier0PriceDecimal (Finite s) (Finite t) tier0)
        (discountedFinalPrice (Finite p) (Finite s) (Finite w) (Finite t))) ->
  exists r,
    calculatePricesWithMarkupDiscount
      (inputOf (Finite p) (Finite s) (Finite w) (Finite t) (Finite g) tier0
               (Finite c)) = Return r
    /\ number_le
         (toNumber (toDecimalPlaces 0 (nabxPrice (Finite s) (Finite w))))
         (calculatedPrice r).
Proof.
  intros Hr Hinf Hp0 Hp100 Hc0 Hprem Hexact.
  rewrite (discount_path_result _ _ _ _ _ _ _ Hr).
  eexists. split; [reflexivity|].
  cbn [calculatedPrice]. unfold number_le. rewrite !ofNumber_toNumber.
  destruct (houseMarkup_finite s w t) as (h & Hh & Hh0).
  destruct (tier0PriceDecimal_finite s t tier0 Hinf) as (ref & Href).
  pose proof (discountedFinalPrice_finite p s w t h Hh) as EF.
  pose proof (finalPriceOf_at_least_wholesale p (s * w) h Hp100 Hh0) as HF.
  pose proof (finalPriceOf_rounded p (s * w) h) as HFr.
  set (F := finalPriceOf p (s * w) h) in *.
  assert (EN : nabxPrice (Finite s) (Finite w) = DFinite (roundResult (s * w)))
    by reflexivity.
  rewrite EN, toDecimalPlaces_finite.
  destruct (capApplies _ _ _ _ _ _ _) eqn:Hcap.
  - (* the cap applies *)
    destruct (Hexact eq_refl) as [Hrep Hex]. clear Hexact.
    rewrite Href, EF in Hex. cbn [exactDifference] in Hex.
    unfold representable in Hex.
    unfold capApplies, uncappedPercent, uncappedTotalDiscount in Hcap.
    unfold cappedDiscountAmount.
    unfold tier0Premium, meltValue in Hprem, Hcap |- *.
    rewrite Href, EF in *. cbn [ofNumber] in *.
    rewrite times_DFinite, !minus_DFinite in *.
    set (P := roundResult (ref - roundResult (s * g))) in *.
    unfold ofZ in Hprem, Hcap |- *. cbn [finite_le] in Hprem.
    change (inject_Z 0) with 0 in Hprem.
    cbn [isZero] in Hcap.
    destruct (Qeq_bool P 0) eqn:EP.
    + (* a zero premium gives zero per cent, which no cap is below *)
      apply greaterThan_finite_true in Hcap.
      change (inject_Z 0) with 0 in Hcap. lra.
    + apply Qeq_bool_neq in EP.
      assert (HP : 0 < P) by lra.
      rewrite dividedBy_DFinite, times_DFinite in Hcap by exact EP.
      apply greaterThan_finite_true in Hcap.
      rewrite times_DFinite.
      rewrite dividedBy_DFinite by discriminate.
      rewrite minus_DFinite, toDecimalPlaces_finite. cbn [finite_le].
      pose proof (capped_amount_at_most_discount c P (ref - F) Hrep HP Hcap)
        as Hca.
      apply round_dp_mono.
      apply Qle_trans with F; [exact HF|].
      rewrite <- HFr. apply rounded_mono. lra.
  - (* the cap does not apply *)
    rewrite EF, toDecimalPlaces_finite. cbn [finite_le].
    apply round_dp_mono. exact HF.
Qed.

Lemma price_at_least_wholesale_witness :
  exists r,
    calculatePricesWithMarkupDiscount clamp_example = Return r
    /\ number_le
         (toNumber (toDecimalPlaces 0
            (nabxPrice (Finite 1000) (Finite (11 # 10)))))
         (calculatedPrice r).
Proof.
  apply (price_at_least_wholesale 20 1000 (11 # 10) 1 1 50 (num (dec 10000 1))).
  - reflexivity.
  - reflexivity.
  - reflexivity.
  - vm_compute. discriminate.
  - vm_compute. discriminate.
  - vm_compute. discriminate.
  - intros _. split; vm_compute; reflexivity.
Defined.

(** C9 as stated fails where the working precision of twenty digits loses
    the last digit of [tier0PriceDecimal.minus(discountedFinalPrice)]: with a
    reference price of 10^20 and a wholesale price of 50999999999.5 the
    subtraction rounds 99999999949000000000.5 up to 99999999949000000001,
    the cap of 99.999999999 per cent applies and allows exactly that amount,
    and the price returned is 50999999999, one below the wholesale price
    rounded to 51000000000. *)
Lemma lost_digit_cuts_into_wholesale :
  reachesDiscountPath twenty_digit_example = true
  /\ number_lt (Finite 0) (dec 20 1)
  /\ number_le (dec 20 1) (Finite 100)
  /\ number_le (Finite 0) (dec 99999999999 1000000000)
  /\ finite_le (ofZ 0)
       (tier0Premium (dec 50000000000 1) (dec 101 100) (dec 1 1)
                     (num (dec 100000000000000000000 1)))
  /\ uncappedTotalDiscount (dec 20 1) (dec 50000000000 1)
       (dec 101999999999 100000000000) (dec 101 100)
       (num (dec 100000000000000000000 1))
     = DFinite (inject_Z 99999999949000000001)
  /\ toNumber (toDecimalPlaces 0
       (nabxPrice (dec 50000000000 1) (dec 101999999999 100000000000)))
     = Finite (inject_Z 51000000000)
  /\ exists r,
       calculatePricesWithMarkupDiscount twenty_digit_example = Return r
       /\ calculatedPrice r = Finite (inject_Z 50999999999)
       /\ number_lt (calculatedPrice r)
            (toNumber (toDecimalPlaces 0
               (nabxPrice (dec 50000000000 1)
                          (dec 101999999999 100000000000)))).
Proof.
  split; [reflexivity|].
  split; [vm_compute; reflexivity|].
  split; [vm_compute; discriminate|].
  split; [vm_compute; discriminate|].
  split; [vm_compute; discriminate|].
  split; [vm_compute; reflexivity|].
  split; [vm_compute; reflexivity|].
  eexists. split; [vm_compute; reflexivity|]. split; [reflexivity|].
  vm_compute. reflexivity.
Qed.

(** C10.  There is a discount-path input whose [tier0Price] is below the
    discounted final price (wholesale price plus discounted house markup)
    and for which the function returns a negative [totalDiscount] and a
    [calculatedPrice] above [tier0Price]: the documentation example with a
    reference price of 2100 gives a price of 2140 and a discount of -40. *)
Theorem total_discount_can_be_negative :
  exists (promo spot wholesale tier weight cap : number) (t0 : Q)
         (r : CalculatedPricesWithMarkupDiscount),
    let i := inputOf promo spot wholesale tier weight (num (Finite t0)) cap in
    reachesDiscountPath i = true
    /\ finite_lt (DFinite t0) (discountedFinalPrice promo spot wholesale tier)
    /\ calculatePricesWithMarkupDiscount i = Return r
    /\ number_lt (totalDiscount r) (Finite 0)
    /\ number_lt (Finite t0) (calculatedPrice r).
Proof.
  exists (dec 20 1), (dec 2000 1), (dec 95 100), (dec 11 10), (dec 1 1),
         (dec 50 1), (2100 # 1).
  eexists. cbv zeta. split; [reflexivity|]. split; [vm_compute; reflexivity|].
  split; [vm_compute; reflexivity|]. split; vm_compute; reflexivity.
Qed.

(** * Further facts about the discount path *)

Module ExtraFacts.
Import Decimal RoundingFacts PathFacts FiniteFacts.

(** Every input on which the constructor does not throw leaves the function
    by one of its three returns. *)
Lemma result_cases (i : CalculatePricesWithMarkupDiscountInput) :
  reachesDiscountPath i = false \/ isNumber (maximumPremiumDiscount i) = true ->
  (truthy (spotPrice i) = false \/ truthy (markupByTier i) = false)
  /\ calculatePricesWithMarkupDiscount i = Return fallback
  \/ (exists s t,
        spotPrice i = num s /\ markupByTier i = num t
        /\ truthy (num s) = true /\ truthy (num t) = true
        /\ calculatePricesWithMarkupDiscount i =
           Return {| originalPrice :=
                       toNumber (toDecimalPlaces 0 (tierPrice s t));
                     calculatedPrice :=
                       toNumber (toDecimalPlaces 0 (tierPrice s t));
                     totalDiscount := zero;
                     totalDiscountPercent := zero |})
  \/ (exists promo spot wholesale tier weight cap,
        i = inputOf promo spot wholesale tier weight (tier0Price i) cap
        /\ reachesDiscountPath i = true).
Proof.
  intros H. destruct (reachesDiscountPath i) eqn:Hr.
  - right; right. destruct H as [H|H]; [discriminate|].
    destruct (maximumPremiumDiscount i) as [| |c] eqn:Ec; try discriminate.
    destruct (reaches_inputOf i Hr) as (p & s & w & t & g & Ei).
    rewrite Ec in Ei. exists p, s, w, t, g, c. split; [exact Ei | reflexivity].
  - destruct (not_reaches i Hr) as [Hf|(Hs & Ht & Hd)].
    + left. split; [exact Hf | exact (fallback_result i Hf)].
    + right; left.
      destruct (truthy_number _ Hs) as [s Es].
      destruct (truthy_number _ Ht) as [t Et].
      rewrite Es in Hs. rewrite Et in Ht.
      exists s, t. repeat split; try assumption.
      exact (no_discount_result i s t Es Et Hs Ht Hd).
Qed.

(** [toDecimalPlaces(0)] gives an integer, [toDecimalPlaces(2)] a number
    of at most two decimal places. *)
Lemma toDecimalPlaces_0_integer (x : Decimal.t) :
  integerIfFinite (toNumber (toDecimalPlaces 0 x)).
Proof.
  destruct x as [|s|q]; cbn [toDecimalPlaces toNumber integerIfFinite]; auto.
  rewrite finalise_dp, round_dp_0. now eexists.
Qed.

Lemma toDecimalPlaces_2_decimals (x : Decimal.t) :
  twoDecimalsIfFinite (toNumber (toDecimalPlaces 2 x)).
Proof.
  destruct x as [|s|q];
    cbn [toDecimalPlaces toNumber twoDecimalsIfFinite]; auto.
  rewrite finalise_dp. exists (round_half_up (q * 10 ^ 2)).
  rewrite round_dp_correct. change (10 ^ 2) with 100. field.
Qed.

(** The intermediate values of the discount path on finite inputs. *)
Lemma tier0Premium_finite (s t g : Q) (tier0 : value) (ref : Q) :
  tier0PriceDecimal (Finite s) (Finite t) tier0 = DFinite ref ->
  tier0Premium (Finite s) (Finite t) (Finite g) tier0
  = DFinite (roundResult (ref - roundResult (s * g))).
Proof.
  intros Href. unfold tier0Premium, meltValue. rewrite Href.
  cbn [ofNumber]. now rewrite times_DFinite, minus_DFinite.
Qed.

Lemma uncappedTotalDiscount_finite (p s w t : Q) (tier0 : value) (ref h : Q) :
  tier0PriceDecimal (Finite s) (Finite t) tier0 = DFinite ref ->
  houseMarkup (Finite s) (Finite w) (Finite t) = DFinite h ->
  uncappedTotalDiscount (Finite p) (Finite s) (Finite w) (Finite t) tier0
  = DFinite (roundResult (ref - finalPriceOf p (s * w) h)).
Proof.
  intros Href Hh. unfold uncappedTotalDiscount.
  now rewrite Href, (discountedFinalPrice_finite p s w t h Hh), minus_DFinite.
Qed.

Lemma uncappedPercent_finite (p s w t g : Q) (tier0 : value) (ref h : Q) :
  tier0PriceDecimal (Finite s) (Finite t) tier0 = DFinite ref ->
  houseMarkup (Finite s) (Finite w) (Finite t) = DFinite h ->
  uncappedPercent (Finite p) (Finite s) (Finite w) (Finite t) (Finite g) tier0
  = DFinite
      (if Qeq_bool (roundResult (ref - roundResult (s * g))) 0 then inject_Z 0
       else roundResult
              (roundResult
                 (roundResult (ref - finalPriceOf p (s * w) h)
                  / roundResult (ref - roundResult (s * g)))
               * inject_Z 100)).
Proof.
  intros Href Hh. unfold uncappedPercent.
  rewrite (tier0Premium_finite s t g tier0 ref Href).
  rewrite (uncappedTotalDiscount_finite p s w t tier0 ref h Href Hh).
  cbn [isZero].
  destruct (Qeq_bool (roundResult (ref - roundResult (s * g))) 0) eqn:E.
  - reflexivity.
  - apply Qeq_bool_neq in E.
    now rewrite dividedBy_DFinite by exact E.
Qed.

Lemma cappedDiscountAmount_finite (s t g c : Q) (tier0 : value) (ref : Q) :
  tier0PriceDecimal (Finite s) (Finite t) tier0 = DFinite ref ->
  cappedDiscountAmount (Finite s) (Finite t) (Finite g) tier0 (Finite c)
  = DFinite
      (roundResult
         (roundResult (roundResult (ref - roundResult (s * g)) * c)
          / inject_Z 100)).
Proof.
  intros Href. unfold cappedDiscountAmount.
  rewrite (tier0Premium_finite s t g tier0 ref Href). cbn [ofNumber].
  rewrite times_DFinite. apply dividedBy_DFinite. discriminate.
Qed.



(** A promotion of 100 per cent leaves the wholesale price. *)
Lemma finalPriceOf_100 (p sw h : Q) :
  p == 100 -> finalPriceOf p sw h = roundResult sw.
Proof.
  intros Hp. unfold finalPriceOf.
  assert (E1 : roundResult (p / 100) == 1).
  { rewrite (rounded_comp (p / 100) 1) by (rewrite Hp; reflexivity).
    apply rounded_one. }
  assert (E2 : roundResult (1 - roundResult (p / 100)) = 0).
  { apply rounded_zero. rewrite E1. reflexivity. }
  rewrite E2.
  rewrite (rounded_zero (h * 0)) by ring.
  rewrite (rounded_comp (roundResult sw + 0) (roundResult sw)) by ring.
  apply rounded_eq, rounded_idem.
Qed.

(** A falsy [tier0Price] makes the tier price the reference price. *)
Lemma tier0PriceDecimal_falsy (spot tier : number) (tier0 : value) :
  truthy tier0 = false ->
  tier0PriceDecimal spot tier tier0 = tierPrice spot tier.
Proof.
  intros H. unfold tier0PriceDecimal. destruct tier0; try reflexivity.
  now rewrite H.
Qed.

Lemma isInfinite_falsy (v : value) : truthy v = false -> isInfinite v = false.
Proof. destruct v as [| |[|b|q]]; try reflexivity. discriminate. Qed.

(** The final price of a tier below wholesale is the wholesale price. *)
Lemma below_wholesale_final_price (p : Q) (spot wholesale tier : number) :
  lessThan (tierPrice spot tier) (nabxPrice spot wholesale) = true ->
  discountedFinalPrice (Finite p) spot wholesale tier
  = nabxPrice spot wholesale.
Proof.
  intros Hlt.
  unfold discountedFinalPrice, discountedHouseMarkup, markupDiscountRate.
  rewrite (houseMarkup_below_wholesale _ _ _ Hlt).
  cbn [ofNumber]. rewrite dividedBy_100.
  unfold ofZ. rewrite minus_DFinite, times_DFinite.
  apply plus_zero_product.
  - rewrite rounded_zero; [reflexivity|]. change (inject_Z 0) with 0. ring.
  - intros E. rewrite E in Hlt.
    destruct (tierPrice spot tier) as [|[|]|a]; discriminate.
Qed.

(** With a promotion that is not negative the discounted price before the cap
    is at most the wholesale price plus the house markup. *)
Lemma finalPriceOf_at_most (p sw h : Q) :
  0 <= p -> 0 <= h ->
  finalPriceOf p sw h <= roundResult (roundResult sw + roundResult h).
Proof.
  intros Hp Hh. unfold finalPriceOf.
  assert (A : 0 <= roundResult (p / 100)).
  { apply rounded_nonneg. apply Qle_shift_div_l; [reflexivity | lra]. }
  assert (B : roundResult (1 - roundResult (p / 100)) <= 1).
  { apply Qle_trans with (roundResult 1).
    - apply rounded_mono. lra.
    - rewrite rounded_one. apply Qle_refl. }
  assert (C : roundResult (h * roundResult (1 - roundResult (p / 100)))
              <= roundResult h).
  { apply rounded_mono.
    apply Qle_trans with (h * 1); [|rewrite Qmult_1_r; apply Qle_refl].
    rewrite !(Qmult_comm h). now apply Qmult_le_compat_r. }
  apply rounded_mono. lra.
Qed.

(** The capped amount of a premium and a cap that are not negative is not
    negative. *)
Lemma capped_amount_nonneg (P c : Q) :
  0 <= P -> 0 <= c -> 0 <= roundResult (roundResult (P * c) / inject_Z 100).
Proof.
  intros HP Hc. apply rounded_nonneg.
  apply Qle_shift_div_l; [reflexivity|]. rewrite Qmult_0_l.
  apply rounded_nonneg. now apply Qmult_le_0_compat.
Qed.

(** The capped amount grows with the cap when the premium is not negative. *)
Lemma capped_amount_mono (P c1 c2 : Q) :
  0 <= P -> c1 <= c2 ->
  roundResult (roundResult (P * c1) / inject_Z 100)
  <= roundResult (roundResult (P * c2) / inject_Z 100).
Proof.
  intros HP Hc. apply rounded_mono.
  apply Qmult_le_compat_r; [|discriminate].
  apply rounded_mono. rewrite !(Qmult_comm P).
  now apply Qmult_le_compat_r.
Qed.



End ExtraFacts.

(** * Further properties of [calculatePricesWithMarkupDiscount] *)

Import ExtraFacts.

(** X1.  Whenever the function returns (the input does not reach the
    discount path, or the cap is a number), every finite price it returns
    is an integer number of cents: [originalPrice], [calculatedPrice] and
    [totalDiscount] are integers and [totalDiscountPercent] has at most two
    decimal places. *)
Theorem prices_are_integers (i : CalculatePricesWithMarkupDiscountInput) :
  reachesDiscountPath i = false \/ isNumber (maximumPremiumDiscount i) = true ->
  exists r,
    calculatePricesWithMarkupDiscount i = Return r
    /\ integerIfFinite (originalPrice r)
    /\ integerIfFinite (calculatedPrice r)
    /\ integerIfFinite (totalDiscount r)
    /\ twoDecimalsIfFinite (totalDiscountPercent r).
Proof.
  intros H.
  destruct (result_cases i H)
    as [[_ E]|[(s & t & _ & _ & _ & _ & E)
              |(p & s & w & t & g & c & Ei & Hr)]].
  - rewrite E. eexists. split; [reflexivity|].
    cbn. repeat split; try (now exists 100000000%Z); now exists 0%Z.
  - rewrite E. eexists. split; [reflexivity|].
    cbn [originalPrice calculatedPrice totalDiscount totalDiscountPercent].
    repeat split; try apply toDecimalPlaces_0_integer.
    + now exists 0%Z.
    + exists 0%Z. reflexivity.
  - rewrite Ei in Hr |- *.
    rewrite (discount_path_result _ _ _ _ _ _ _ Hr).
    eexists. split; [reflexivity|].
    cbn [originalPrice calculatedPrice totalDiscount totalDiscountPercent].
    repeat split; try apply toDecimalPlaces_0_integer.
    apply toDecimalPlaces_2_decimals.
Qed.

Lemma prices_are_integers_witness :
  exists r,
    calculatePricesWithMarkupDiscount doc_example = Return r
    /\ integerIfFinite (originalPrice r)
    /\ integerIfFinite (calculatedPrice r)
    /\ integerIfFinite (totalDiscount r)
    /\ twoDecimalsIfFinite (totalDiscountPercent r).
Proof.
  apply (prices_are_integers doc_example). right. reflexivity.
Defined.



(** X3.  The function throws exactly when the input reaches the discount
    path (all of [spotPrice], [markupByTier], [promoMarkupDiscount],
    [wholesaleMarkup] and [actualMetalWeight] truthy) and
    [maximumPremiumDiscount] is [undefined] or [null]; the error is then the
    constructor's complaint about that value.  No other field and no
    arithmetic makes it throw. *)
Theorem throws_exactly_without_cap
    (i : CalculatePricesWithMarkupDiscountInput) (e : DecimalError) :
  calculatePricesWithMarkupDiscount i = Throw e
  <-> reachesDiscountPath i = true
      /\ isNumber (maximumPremiumDiscount i) = false
      /\ e = InvalidArgument (maximumPremiumDiscount i).
Proof.
  split.
  - intros E.
    destruct (reachesDiscountPath i) eqn:Hr;
      destruct (isNumber (maximumPremiumDiscount i)) eqn:Hc.
    + exfalso.
      destruct (result_cases i (or_intror Hc))
        as [[_ E']|[(s & t & _ & _ & _ & _ & E')
                   |(p & s & w & t & g & c & Ei & _)]];
        try congruence.
      rewrite Ei in Hr, E.
      rewrite (discount_path_result _ _ _ _ _ _ _ Hr) in E. discriminate.
    + rewrite (discount_path_throws i Hr Hc) in E. injection E as <-.
      now repeat split.
    + exfalso.
      destruct (result_cases i (or_introl Hr))
        as [[_ E']|[(s & t & _ & _ & _ & _ & E')
                   |(p & s & w & t & g & c & _ & ?)]];
        congruence.
    + exfalso.
      destruct (result_cases i (or_introl Hr))
        as [[_ E']|[(s & t & _ & _ & _ & _ & E')
                   |(p & s & w & t & g & c & _ & ?)]];
        congruence.
  - intros (Hr & Hc & ->). exact (discount_path_throws i Hr Hc).
Qed.

(** X4.  With a promotion of 100 per cent and a cap that does not apply,
    the calculated price is the wholesale price [spotPrice * wholesaleMarkup]
    rounded to an integer, also for a tier below wholesale. *)
Theorem full_promo_gives_wholesale_price
    (p s w t g : Q) (tier0 : value) (cap : number) :
  reachesDiscountPath
    (inputOf (Finite p) (Finite s) (Finite w) (Finite t) (Finite g) tier0 cap)
  = true ->
  p == 100 ->
  capApplies (Finite p) (Finite s) (Finite w) (Finite t) (Finite g) tier0 cap
  = false ->
  exists r,
    calculatePricesWithMarkupDiscount
      (inputOf (Finite p) (Finite s) (Finite w) (Finite t) (Finite g)
               tier0 cap) = Return r
    /\ calculatedPrice r
       = toNumber (toDecimalPlaces 0 (nabxPrice (Finite s) (Finite w))).
Proof.
  intros Hr Hp Hc.
  rewrite (discount_path_result _ _ _ _ _ _ _ Hr), Hc.
  eexists. split; [reflexivity|]. cbn [calculatedPrice].
  destruct (houseMarkup_finite s w t) as (h & Hh & _).
  rewrite (discountedFinalPrice_finite p s w t h Hh).
  now rewrite (finalPriceOf_100 p (s * w) h Hp).
Qed.

Lemma full_promo_gives_wholesale_price_witness :
  exists r,
    calculatePricesWithMarkupDiscount (test_cap_input (dec 100 1)) = Return r
    /\ calculatedPrice r
       = toNumber (toDecimalPlaces 0
           (nabxPrice (Finite 4944) (Finite (1119394649 # 1000000000)))).
Proof.
  apply (full_promo_gives_wholesale_price 100 4944 (1119394649 # 1000000000)
           2 1 (num (dec 9888 1)) (dec 100 1)).
  - reflexivity.
  - reflexivity.
  - vm_compute. reflexivity.
Defined.

(** X5.  A cap of zero that applies removes the discount: the returned
    [totalDiscount] and [totalDiscountPercent] are 0 and, without a
    [tier0Price], the calculated price is the original price. *)
Theorem zero_cap_removes_discount
    (p s w t g c : Q) (tier0 : value) :
  reachesDiscountPath
    (inputOf (Finite p) (Finite s) (Finite w) (Finite t) (Finite g) tier0
             (Finite c)) = true ->
  isInfinite tier0 = false ->
  c == 0 ->
  capApplies (Finite p) (Finite s) (Finite w) (Finite t) (Finite g) tier0
             (Finite c) = true ->
  exists r,
    calculatePricesWithMarkupDiscount
      (inputOf (Finite p) (Finite s) (Finite w) (Finite t) (Finite g) tier0
               (Finite c)) = Return r
    /\ totalDiscount r = Finite 0
    /\ totalDiscountPercent r = Finite 0
    /\ (truthy tier0 = false -> calculatedPrice r = originalPrice r).
Proof.
  intros Hr Hinf Hc Hcap.
  rewrite (discount_path_result _ _ _ _ _ _ _ Hr), Hcap.
  eexists. split; [reflexivity|].
  cbn [totalDiscount totalDiscountPercent calculatedPrice originalPrice].
  destruct (tier0PriceDecimal_finite s t tier0 Hinf) as (ref & Href).
  rewrite (cappedDiscountAmount_finite s t g c tier0 ref Href).
  assert (E0 : roundResult
                 (roundResult (roundResult (ref - roundResult (s * g)) * c)
                  / inject_Z 100) = 0).
  { rewrite (rounded_zero (_ * c)) by (rewrite Hc; ring).
    apply rounded_zero. reflexivity. }
  rewrite E0. cbn [ofNumber]. rewrite !toDecimalPlaces_finite.
  rewrite (round_dp_zero 0 0) by reflexivity.
  rewrite (round_dp_zero 2 c Hc). cbn [toNumber].
  repeat split.
  intros Hf. rewrite (tier0PriceDecimal_falsy _ _ _ Hf).
  unfold tierPrice. cbn [ofNumber]. rewrite times_DFinite, minus_DFinite.
  do 3 f_equal.
  rewrite (rounded_comp (roundResult (s * t) - 0) (roundResult (s * t)))
    by ring.
  apply rounded_eq, rounded_idem.
Qed.

Lemma zero_cap_removes_discount_witness :
  exists r,
    calculatePricesWithMarkupDiscount
      (inputOf (Finite 20) (Finite 2000) (Finite (95 # 100))
               (Finite (11 # 10)) (Finite 1) undefined (Finite 0)) = Return r
    /\ totalDiscount r = Finite 0
    /\ totalDiscountPercent r = Finite 0
    /\ (truthy undefined = false -> calculatedPrice r = originalPrice r).
Proof.
  apply (zero_cap_removes_discount 20 2000 (95 # 100) (11 # 10) 1 0
           undefined).
  - reflexivity.
  - reflexivity.
  - reflexivity.
  - vm_compute. reflexivity.
Defined.

(** X6.  For a tier priced below wholesale the promotion never lowers the
    price: when the cap does not apply, the calculated price is at least the
    original price and, without a [tier0Price], the total discount is zero
    or negative. *)
Theorem below_wholesale_promo_raises_price
    (p s w t g : Q) (tier0 : value) (cap : number) :
  reachesDiscountPath
    (inputOf (Finite p) (Finite s) (Finite w) (Finite t) (Finite g) tier0 cap)
  = true ->
  lessThan (tierPrice (Finite s) (Finite t)) (nabxPrice (Finite s) (Finite w))
  = true ->
  capApplies (Finite p) (Finite s) (Finite w) (Finite t) (Finite g) tier0 cap
  = false ->
  exists r,
    calculatePricesWithMarkupDiscount
      (inputOf (Finite p) (Finite s) (Finite w) (Finite t) (Finite g)
               tier0 cap) = Return r
    /\ number_le (originalPrice r) (calculatedPrice r)
    /\ (truthy tier0 = false -> number_le (totalDiscount r) (Finite 0)).
Proof.
  intros Hr Hlt Hc.
  rewrite (discount_path_result _ _ _ _ _ _ _ Hr), Hc.
  eexists. split; [reflexivity|].
  cbn [originalPrice calculatedPrice totalDiscount]. unfold number_le.
  rewrite !ofNumber_toNumber.
  unfold uncappedTotalDiscount.
  rewrite (below_wholesale_final_price p _ _ _ Hlt).
  unfold tierPrice, nabxPrice in *. cbn [ofNumber] in *.
  rewrite !times_DFinite in *. apply lessThan_finite_true in Hlt.
  rewrite !toDecimalPlaces_finite. cbn [finite_le]. split.
  - apply round_dp_mono. lra.
  - intros Hf. rewrite (tier0PriceDecimal_falsy _ _ _ Hf).
    unfold tierPrice. cbn [ofNumber].
    rewrite times_DFinite, minus_DFinite, toDecimalPlaces_finite.
    cbn [finite_le].
    apply Qle_trans with (round_dp 0 0).
    + apply round_dp_mono. apply Qlt_le_weak, rounded_neg. lra.
    + rewrite round_dp_zero by reflexivity. apply Qle_refl.
Qed.

Lemma below_wholesale_promo_raises_price_witness :
  exists r,
    calculatePricesWithMarkupDiscount test_below_wholesale_input = Return r
    /\ number_le (originalPrice r) (calculatedPrice r)
    /\ (truthy undefined = false -> number_le (totalDiscount r) (Finite 0)).
Proof.
  apply (below_wholesale_promo_raises_price 20 4944
           (1119394649 # 1000000000) (111 # 100) 1 undefined (dec 70 1)).
  - reflexivity.
  - vm_compute. reflexivity.
  - vm_compute. reflexivity.
Defined.

(** X7.  Without a [tier0Price], with a positive promotion, a cap that is
    not negative, a tier price at least the wholesale price (their
    difference exact in twenty digits) and a premium that is not negative,
    the calculated price is at most the original price and the total
    discount is not negative, whether the cap applies or not. *)
Theorem promo_never_raises_price_above_original
    (p s w t g c : Q) (tier0 : value) :
  reachesDiscountPath
    (inputOf (Finite p) (Finite s) (Finite w) (Finite t) (Finite g) tier0
             (Finite c)) = true ->
  truthy tier0 = false ->
  0 < p -> 0 <= c ->
  finite_le (nabxPrice (Finite s) (Finite w))
            (tierPrice (Finite s) (Finite t)) ->
  exactDifference (tierPrice (Finite s) (Finite t))
                  (nabxPrice (Finite s) (Finite w)) ->
  finite_le (ofZ 0) (tier0Premium (Finite s) (Finite t) (Finite g) tier0) ->
  exists r,
    calculatePricesWithMarkupDiscount
      (inputOf (Finite p) (Finite s) (Finite w) (Finite t) (Finite g) tier0
               (Finite c)) = Return r
    /\ number_le (calculatedPrice r) (originalPrice r)
    /\ number_le (Finite 0) (totalDiscount r).
Proof.
  intros Hr Hf Hp Hc Hle Hex Hprem.
  rewrite (discount_path_result _ _ _ _ _ _ _ Hr).
  eexists. split; [reflexivity|].
  cbn [originalPrice calculatedPrice totalDiscount]. unfold number_le.
  rewrite !ofNumber_toNumber.
  pose proof (tier0PriceDecimal_falsy (Finite s) (Finite t) tier0 Hf) as Href.
  unfold tierPrice, nabxPrice in Hle, Hex, Href. unfold tierPrice.
  cbn [ofNumber] in *. rewrite !times_DFinite in *.
  cbn [finite_le exactDifference] in Hle, Hex. unfold representable in Hex.
  pose proof (rounded_idem (s * t)) as HT.
  set (T := roundResult (s * t)) in *. set (N := roundResult (s * w)) in *.
  rewrite (tier0Premium_finite s t g tier0 T Href) in Hprem.
  cbn [finite_le ofZ] in Hprem. change (inject_Z 0) with 0 in Hprem.
  rewrite !toDecimalPlaces_finite.
  destruct (capApplies _ _ _ _ _ _ _) eqn:Hcap.
  - rewrite Href, (cappedDiscountAmount_finite s t g c tier0 T Href).
    rewrite minus_DFinite, !toDecimalPlaces_finite. cbn [finite_le].
    pose proof (capped_amount_nonneg _ c Hprem Hc) as Hca.
    split.
    + apply round_dp_mono. apply Qle_trans with (roundResult T).
      * apply rounded_mono. lra.
      * rewrite HT. apply Qle_refl.
    + apply Qle_trans with (round_dp 0 0).
      * rewrite round_dp_zero by reflexivity. apply Qle_refl.
      * now apply round_dp_mono.
  - assert (Hh : houseMarkup (Finite s) (Finite w) (Finite t)
                 = DFinite (roundResult (T - N))).
    { unfold houseMarkup, tierPrice, nabxPrice. cbn [ofNumber].
      rewrite !times_DFinite, minus_DFinite. fold T N.
      destruct (lessThan _ (ofZ 0)) eqn:E; [|reflexivity].
      apply lessThan_finite_true in E.
      change (inject_Z 0) with 0 in E. rewrite Hex in E. lra. }
    assert (HF : finalPriceOf p (s * w) (roundResult (T - N)) <= T).
    { eapply Qle_trans.
      - apply finalPriceOf_at_most; lra.
      - fold N. apply Qle_trans with (roundResult T).
        + apply rounded_mono. rewrite rounded_idem, Hex. lra.
        + rewrite HT. apply Qle_refl. }
    rewrite (discountedFinalPrice_finite p s w t _ Hh).
    rewrite (uncappedTotalDiscount_finite p s w t tier0 T _ Href Hh).
    rewrite !toDecimalPlaces_finite. cbn [finite_le]. split.
    + now apply round_dp_mono.
    + apply Qle_trans with (round_dp 0 0).
      * rewrite round_dp_zero by reflexivity. apply Qle_refl.
      * apply round_dp_mono, rounded_nonneg. lra.
Qed.

Lemma promo_never_raises_price_above_original_witness :
  exists r,
    calculatePricesWithMarkupDiscount doc_example = Return r
    /\ number_le (calculatedPrice r) (originalPrice r)
    /\ number_le (Finite 0) (totalDiscount r).
Proof.
  apply (promo_never_raises_price_above_original 20 2000 (95 # 100)
           (11 # 10) 1 50 undefined).
  - reflexivity.
  - reflexivity.
  - reflexivity.
  - vm_compute. discriminate.
  - vm_compute. discriminate.
  - vm_compute. reflexivity.
  - vm_compute. discriminate.
Defined.

(** X8.  Raising the cap never lowers the discount: for two inputs that
    differ only in [maximumPremiumDiscount], the smaller cap exact in twenty
    digits and the premium positive, the larger cap gives a
    [totalDiscount] and a [totalDiscountPercent] at least as large, and a
    [calculatedPrice] at most as large when the uncapped discount is exact
    in twenty digits. *)
Theorem larger_cap_never_lowers_discount
    (p s w t g c1 c2 : Q) (tier0 : value) :
  reachesDiscountPath
    (inputOf (Finite p) (Finite s) (Finite w) (Finite t) (Finite g) tier0
             (Finite c1)) = true ->
  isInfinite tier0 = false ->
  c1 <= c2 ->
  representable c1 ->
  finite_lt (ofZ 0) (tier0Premium (Finite s) (Finite t) (Finite g) tier0) ->
  exists r1 r2,
    calculatePricesWithMarkupDiscount
      (inputOf (Finite p) (Finite s) (Finite w) (Finite t) (Finite g) tier0
               (Finite c1)) = Return r1
    /\ calculatePricesWithMarkupDiscount
         (inputOf (Finite p) (Finite s) (Finite w) (Finite t) (Finite g) tier0
                  (Finite c2)) = Return r2
    /\ number_le (totalDiscount r1) (totalDiscount r2)
    /\ number_le (totalDiscountPercent r1) (totalDiscountPercent r2)
    /\ (exactDifference
          (tier0PriceDecimal (Finite s) (Finite t) tier0)
          (discountedFinalPrice (Finite p) (Finite s) (Finite w) (Finite t)) ->
        number_le (calculatedPrice r2) (calculatedPrice r1)).
Proof.
  intros Hr Hinf Hc Hrep Hprem.
  assert (Hr2 : reachesDiscountPath
                  (inputOf (Finite p) (Finite s) (Finite w) (Finite t)
                           (Finite g) tier0 (Finite c2)) = true) by exact Hr.
  rewrite (discount_path_result _ _ _ _ _ _ _ Hr).
  rewrite (discount_path_result _ _ _ _ _ _ _ Hr2).
  do 2 eexists. split; [reflexivity|]. split; [reflexivity|].
  cbn [totalDiscount totalDiscountPercent calculatedPrice]. unfold number_le.
  rewrite !ofNumber_toNumber.
  destruct (houseMarkup_finite s w t) as (h & Hh & _).
  destruct (tier0PriceDecimal_finite s t tier0 Hinf) as (ref & Href).
  rewrite (tier0Premium_finite s t g tier0 ref Href) in Hprem.
  cbn [finite_lt ofZ] in Hprem. change (inject_Z 0) with 0 in Hprem.
  unfold capApplies.
  rewrite (uncappedPercent_finite p s w t g tier0 ref h Href Hh).
  rewrite (uncappedTotalDiscount_finite p s w t tier0 ref h Href Hh).
  rewrite (discountedFinalPrice_finite p s w t h Hh).
  rewrite !(cappedDiscountAmount_finite s t g _ tier0 ref Href).
  rewrite Href. cbn [exactDifference ofNumber]. unfold representable.
  pose proof (finalPriceOf_rounded p (s * w) h) as HFr.
  set (F := finalPriceOf p (s * w) h) in *.
  set (P := roundResult (ref - roundResult (s * g))) in *.
  assert (EP : Qeq_bool P 0 = false).
  { destruct (Qeq_bool P 0) eqn:E; [|reflexivity].
    apply Qeq_bool_iff in E. lra. }
  rewrite EP.
  set (pct := roundResult (roundResult (roundResult (ref - F) / P)
                           * inject_Z 100)).
  destruct (greaterThan (DFinite pct) (DFinite c1)) eqn:H1;
    destruct (greaterThan (DFinite pct) (DFinite c2)) eqn:H2;
    rewrite ?minus_DFinite, !toDecimalPlaces_finite; cbn [finite_le].
  - (* the cap applies in both runs *)
    pose proof (capped_amount_mono P c1 c2 (Qlt_le_weak _ _ Hprem) Hc) as Hca.
    split; [now apply round_dp_mono|]. split; [now apply round_dp_mono|].
    intros _. apply round_dp_mono, rounded_mono. lra.
  - (* the cap applies in the first run only *)
    apply greaterThan_finite_true in H1.
    pose proof (capped_amount_at_most_discount c1 P (ref - F) Hrep Hprem H1)
      as Hca.
    split; [now apply round_dp_mono|].
    split; [apply round_dp_mono; fold pct in H1; lra|].
    intros Hex. apply round_dp_mono.
    apply Qle_trans with (roundResult F).
    + rewrite HFr. apply Qle_refl.
    + apply rounded_mono. lra.
  - (* the cap cannot apply in the second run only *)
    apply greaterThan_finite in H1. apply greaterThan_finite_true in H2. lra.
  - (* the cap applies in neither run *)
    split; [apply Qle_refl|]. split; [apply Qle_refl|].
    intros _. apply Qle_refl.
Qed.

Lemma larger_cap_never_lowers_discount_witness :
  exists r1 r2,
    calculatePricesWithMarkupDiscount (test_cap_input (dec 30 1)) = Return r1
    /\ calculatePricesWithMarkupDiscount (test_cap_input (dec 100 1))
       = Return r2
    /\ number_le (totalDiscount r1) (totalDiscount r2)
    /\ number_le (totalDiscountPercent r1) (totalDiscountPercent r2)
    /\ (exactDifference
          (tier0PriceDecimal (Finite 4944) (Finite 2) (num (dec 9888 1)))
          (discountedFinalPrice (Finite 100) (Finite 4944)
             (Finite (1119394649 # 1000000000)) (Finite 2)) ->
        number_le (calculatedPrice r2) (calculatedPrice r1)).
Proof.
  apply (larger_cap_never_lowers_discount 100 4944
           (1119394649 # 1000000000) 2 1 30 100 (num (dec 9888 1))).
  - reflexivity.
  - reflexivity.
  - vm_compute. discriminate.
  - vm_compute. reflexivity.
  - vm_compute. reflexivity.
Defined.


